(** * Server notices manager

    A shallow embedding of [synapse/server_notices/server_notices_manager.py]
    (class [ServerNoticesManager]) and the properties its design document
    states about it.

    The manager talks to three collaborators (the datastore, the room
    creation handler and the event creation handler).  Their code is not
    part of the manager; they are modelled as an arbitrary, stateful and
    fallible environment, and every call made to them is recorded so that
    statements of the form "no storage query is performed" can be written
    down.  Logging is left out. *)

From Stdlib Require Import ZArith.
From stdpp Require Import base option list strings gmap.

Open Scope string_scope.
Open Scope list_scope.

(** ** Data model *)

Abbreviation UserId := string (only parsing).
Abbreviation RoomId := string (only parsing).

(** Modelled from the spec: the constant classes of [synapse.api.constants]
    are not among the sources.  The design document speaks of membership
    states "invite, join, ...", of the private chat preset and of the
    message event type; each class is an enumeration holding the member the
    manager names next to some siblings. *)
Inductive Membership : Type := INVITE | JOIN | KNOCK | LEAVE | BAN.
Inductive RoomCreationPreset : Type :=
  PRIVATE_CHAT | PUBLIC_CHAT | TRUSTED_PRIVATE_CHAT.
Inductive EventTypes : Type := Member | Create | Message | Name | PowerLevels.

#[export] Instance Membership_eq_dec : EqDecision Membership.
Proof. solve_decision. Defined.

(** Python exceptions.  [Exception msg] is what the manager raises itself,
    [KeyError] is what subscripting a dict with an absent key raises and
    [Error kind msg] stands for whatever a collaborator may raise. *)
Inductive PyErr : Type :=
| Exception (msg : string)
| KeyError (key : string)
| Error (kind msg : string).

(** The content of a notice: a JSON object supplied by the caller and
    handed on untouched. *)
#[warnings="-register-all"]
Inductive Json : Type :=
| JNull
| JBool (b : bool)
| JNum (n : Z)
| JStr (s : string)
| JArr (items : list Json)
| JObj (fields : list (string * Json)).

(** The read-only configuration fields the manager consults.  The system
    account may be absent ([None] in Python). *)
Record Config : Type := {
  server_notices_mxid : option UserId;
  server_notices_room_name : string;
  server_notices_mxid_display_name : string
}.

(** [self]: the collaborators live in the environment below, so the object
    state that matters is the configuration. *)
Record ServerNoticesManager : Type := { _config : Config }.

(** A row returned by [get_rooms_for_user_where_membership_is]; the manager
    reads its [room_id] attribute. *)
Record RoomsForUser : Type := { room_id : RoomId; membership : Membership }.

(** Modelled from the spec: [create_requester] of [synapse.types] is not
    among the sources; the glossary describes a requester as the identity
    context that authorises an action, here always the system notices
    account. *)
Record Requester : Type := { user : option UserId }.
Definition create_requester (user_id : option UserId) : Requester :=
  {| user := user_id |}.

(** The [config] dict literal passed to [create_room]. *)
Record RoomConfig : Type := {
  preset : RoomCreationPreset;
  name : string;
  power_level_content_override : gmap string Z;
  invite : list UserId
}.

(** The [creator_join_profile] dict literal. *)
Record JoinProfile : Type := { displayname : string }.

(** The event dict literal passed to [create_and_send_nonmember_event]. *)
Record EventDict : Type := {
  ev_type : EventTypes;
  ev_room_id : RoomId;
  ev_sender : option UserId;
  ev_content : Json
}.

(** ** Collaborator calls *)

(** One constructor per collaborator method the manager calls, with the
    arguments it passes. *)
Inductive Cmd : Type :=
| get_rooms_for_user_where_membership_is
    (user_id : UserId) (membership_list : list Membership)
| get_users_in_room (room : RoomId)
| create_room (requester : Requester) (config : RoomConfig)
    (ratelimit : bool) (creator_join_profile : JoinProfile)
| create_and_send_nonmember_event (requester : Requester)
    (event_dict : EventDict) (ratelimit : bool).

(** What each call answers when it does not raise.  [create_room] answers a
    dict from which the manager reads the key ["room_id"]. *)
Definition Resp (c : Cmd) : Type :=
  match c with
  | get_rooms_for_user_where_membership_is _ _ => list RoomsForUser
  | get_users_in_room _ => list UserId
  | create_room _ _ _ _ => gmap string string
  | create_and_send_nonmember_event _ _ _ => unit
  end.

(** A performed call together with what came back. *)
Inductive Event : Type :=
| Ev (c : Cmd) (r : PyErr + Resp c).

Definition cmd_of (ev : Event) : Cmd := let 'Ev c _ := ev in c.

Definition is_create_room (c : Cmd) : bool :=
  match c with create_room _ _ _ _ => true | _ => false end.

Definition is_event_creation (c : Cmd) : bool :=
  match c with create_and_send_nonmember_event _ _ _ => true | _ => false end.

(** How many of the calls [t] are of kind [p]. *)
Fixpoint times (p : Cmd -> bool) (t : list Event) : nat :=
  match t with
  | [] => 0
  | ev :: t' => (if p (cmd_of ev) then 1 else 0) + times p t'
  end.

(** ** Generators

    A function decorated with [defer.inlineCallbacks] is a generator: it
    runs until it yields a collaborator call, is resumed with the answer,
    and ends by [defer.returnValue] or by raising.  None of the manager's
    generators catches an exception, so an exception thrown into the
    generator at a [yield] ends it; the continuation of [Yield] is therefore
    only given successful answers. *)
Inductive Gen (A : Type) : Type :=
| Return (a : A)
| Raise (e : PyErr)
| Yield (c : Cmd) (k : Resp c -> Gen A).
Arguments Return {A} a.
Arguments Raise {A} e.
Arguments Yield {A} c k.

Fixpoint gen_bind {A B : Type} (k : A -> Gen B) (g : Gen A) : Gen B :=
  match g with
  | Return a => k a
  | Raise e => Raise e
  | Yield c k' => Yield c (fun x => gen_bind k (k' x))
  end.

#[export] Instance gen_ret : MRet Gen := @Return.
#[export] Instance gen_mbind : MBind Gen := @gen_bind.

(** [yield c]: suspend on one collaborator call. *)
Definition yield (c : Cmd) : Gen (Resp c) := Yield c Return.

(** Python's [x in xs] for a value that may be [None] and a list of
    strings. *)
Definition py_in (x : option string) (xs : list string) : bool :=
  match x with
  | Some s => bool_decide (s ∈ xs)
  | None => false
  end.

(** Python's [d[key]] on a dict. *)
Definition getitem (d : gmap string string) (key : string) : Gen string :=
  match d !! key with
  | Some v => Return v
  | None => Raise (KeyError key)
  end.

(** ** The manager *)

Definition is_enabled (self : ServerNoticesManager) : bool :=
  bool_decide (server_notices_mxid (_config self) ≠ None).

(** The [for room in rooms] loop of [get_notice_room_for_user]; [orelse] is
    the code that follows the loop. *)
Fixpoint for_room_in (system_mxid : option UserId) (rooms : list RoomsForUser)
    (orelse : Gen RoomId) : Gen RoomId :=
  match rooms with
  | [] => orelse
  | room :: rooms' =>
      user_ids ← yield (get_users_in_room (room_id room));
      if py_in system_mxid user_ids
      then Return (room_id room)
      else for_room_in system_mxid rooms' orelse
  end.

(** The body of [get_notice_room_for_user], before decoration. *)
Definition get_notice_room_for_user_orig (self : ServerNoticesManager)
    (user_id : UserId) : Gen RoomId :=
  if negb (is_enabled self)
  then Raise (Exception "Server notices not enabled")
  else
    rooms ← yield (get_rooms_for_user_where_membership_is
                     user_id [INVITE; JOIN]);
    let system_mxid := server_notices_mxid (_config self) in
    for_room_in system_mxid rooms
      (let requester := create_requester system_mxid in
       info ← yield (create_room requester
                 {| preset := PRIVATE_CHAT;
                    name := server_notices_room_name (_config self);
                    power_level_content_override :=
                      {[ "users_default" := (-10)%Z ]};
                    invite := [user_id] |}
                 false
                 {| displayname :=
                      server_notices_mxid_display_name (_config self) |});
       room_id ← getitem info "room_id";
       Return room_id).

(** ** Running generators against the collaborators *)

(** The result of running a piece of code: the state it leaves, the
    collaborator calls it made, in order, and how it ended. *)
Record Ran (S A : Type) : Type := {
  final : S;
  calls : list Event;
  outcome : PyErr + A
}.
Arguments final {S A} _.
Arguments calls {S A} _.
Arguments outcome {S A} _.

(** The state of the manager's surroundings: the world behind the
    collaborators and the memoisation table of the decorated resolver
    (the "NoticeRoomCacheEntry" mapping of the data model). *)
Record Sys (World : Type) : Type := {
  world : World;
  cache : gmap UserId RoomId
}.
Arguments world {World} _.
Arguments cache {World} _.

(** What callers of the manager, and the rest of the homeserver, may do. *)
Inductive Op (World : Type) : Type :=
| OpResolve (user_id : UserId)
| OpSend (user_id : UserId) (event_content : Json)
| Elsewhere (f : World -> World).
Arguments OpResolve {World} user_id.
Arguments OpSend {World} user_id event_content.
Arguments Elsewhere {World} f.

Section Runtime.
Context {World : Type}.

(** The collaborators: any call may change the world and may raise. *)
Variable respond : forall c : Cmd, World -> World * (PyErr + Resp c).

(** Drive a generator to its end, answering each [yield] in turn. *)
Fixpoint run {A : Type} (g : Gen A) (w : World) : Ran World A :=
  match g with
  | Return a => {| final := w; calls := []; outcome := inr a |}
  | Raise e => {| final := w; calls := []; outcome := inl e |}
  | Yield c k =>
      let '(w', r) := respond c w in
      match r with
      | inl e => {| final := w'; calls := [Ev c (inl e)]; outcome := inl e |}
      | inr x =>
          let rest := run (k x) w' in
          {| final := final rest;
             calls := Ev c (inr x) :: calls rest;
             outcome := outcome rest |}
      end
  end.

(** Code that runs against the whole system state. *)
Definition M (A : Type) : Type := Sys World -> Ran (Sys World) A.

Definition m_ret {A : Type} (a : A) : M A :=
  fun s => {| final := s; calls := []; outcome := inr a |}.

Definition m_bind {A B : Type} (k : A -> M B) (m : M A) : M B :=
  fun s =>
    let r := m s in
    match outcome r with
    | inl e => {| final := final r; calls := calls r; outcome := inl e |}
    | inr a =>
        let r' := k a (final r) in
        {| final := final r';
           calls := calls r ++ calls r';
           outcome := outcome r' |}
    end.

#[local] Instance m_mret : MRet M := @m_ret.
#[local] Instance m_mbind : MBind M := @m_bind.

(** Waiting for a generator that only talks to the collaborators. *)
Definition await {A : Type} (g : Gen A) : M A :=
  fun s =>
    let r := run g (world s) in
    {| final := {| world := final r; cache := cache s |};
       calls := calls r;
       outcome := outcome r |}.

(** Modelled from the spec: the decorator [cachedInlineCallbacks] of
    [synapse.util.caches.descriptors] is not among the sources.  The
    design document describes it as a memoisation table keyed by user id:
    a call for an already resolved user returns the cached room id without
    querying storage or creating a room; otherwise the decorated body
    runs, a successful result is recorded under the user id, and a failed
    resolution is propagated unchanged and leaves no entry behind, so that
    a later call runs the resolution again.  No entry is ever
    invalidated. *)
Definition cachedInlineCallbacks (orig : UserId -> Gen RoomId)
    (user_id : UserId) : M RoomId :=
  fun s =>
    match cache s !! user_id with
    | Some room => {| final := s; calls := []; outcome := inr room |}
    | None =>
        let r := run (orig user_id) (world s) in
        {| final :=
             {| world := final r;
                cache := match outcome r with
                         | inr room => <[user_id := room]> (cache s)
                         | inl _ => cache s
                         end |};
           calls := calls r;
           outcome := outcome r |}
    end.

Definition get_notice_room_for_user (self : ServerNoticesManager)
    : UserId -> M RoomId :=
  cachedInlineCallbacks (get_notice_room_for_user_orig self).

Definition send_notice (self : ServerNoticesManager) (user_id : UserId)
    (event_content : Json) : M unit :=
  room ← get_notice_room_for_user self user_id;
  let system_mxid := server_notices_mxid (_config self) in
  let requester := create_requester system_mxid in
  _ ← await (yield (create_and_send_nonmember_event
               requester
               {| ev_type := Message;
                  ev_room_id := room;
                  ev_sender := system_mxid;
                  ev_content := event_content |}
               false));
  mret tt.

(** *** Histories *)

Definition exec_op (self : ServerNoticesManager) (s : Sys World)
    (op : Op World) : Sys World :=
  match op with
  | OpResolve user_id => final (get_notice_room_for_user self user_id s)
  | OpSend user_id event_content =>
      final (send_notice self user_id event_content s)
  | Elsewhere f => {| world := f (world s); cache := cache s |}
  end.

Definition exec_ops (self : ServerNoticesManager) (ops : list (Op World))
    (s : Sys World) : Sys World :=
  foldl (exec_op self) s ops.

(** A manager starts with an empty table. *)
Definition initial (w : World) : Sys World := {| world := w; cache := ∅ |}.

Definition reachable (self : ServerNoticesManager) (s : Sys World) : Prop :=
  exists w ops, s = exec_ops self ops (initial w).

End Runtime.

(** ** Conversations

    What a generator says to its collaborators does not depend on who
    answers: [follows g t o] holds when the events [t], in this order, are a
    complete conversation of [g], ending in [o]. *)
Fixpoint follows {A : Type} (g : Gen A) (t : list Event) (o : PyErr + A)
    : Prop :=
  match g with
  | Return a => t = [] /\ o = inr a
  | Raise e => t = [] /\ o = inl e
  | Yield c k =>
      (exists e, t = [Ev c (inl e)] /\ o = inl e) \/
      (exists x t', t = Ev c (inr x) :: t' /\ follows (k x) t' o)
  end.

(** The exception a call ended with, if it did. *)
Definition failure_of (ev : Event) : option PyErr :=
  match ev with
  | Ev _ (inl e) => Some e
  | Ev _ (inr _) => None
  end.

(** The member queries for [rooms], answered by [answers], in order. *)
Definition examined (rooms : list RoomsForUser) (answers : list (list UserId))
    : list Event :=
  zip_with (fun room user_ids =>
              Ev (get_users_in_room (room_id room)) (inr user_ids))
    rooms answers.

(** The [create_room] call of [get_notice_room_for_user], spelled out. *)
Definition notice_room_creation (self : ServerNoticesManager)
    (user_id : UserId) : Cmd :=
  create_room
    (create_requester (server_notices_mxid (_config self)))
    {| preset := PRIVATE_CHAT;
       name := server_notices_room_name (_config self);
       power_level_content_override := {[ "users_default" := (-10)%Z ]};
       invite := [user_id] |}
    false
    {| displayname := server_notices_mxid_display_name (_config self) |}.

(** The [create_and_send_nonmember_event] call of [send_notice]. *)
Definition notice_submission (self : ServerNoticesManager) (room : RoomId)
    (event_content : Json) : Cmd :=
  create_and_send_nonmember_event
    (create_requester (server_notices_mxid (_config self)))
    {| ev_type := Message;
       ev_room_id := room;
       ev_sender := server_notices_mxid (_config self);
       ev_content := event_content |}
    false.

(** Every conversation the undecorated resolver can have, and its end:
    it refuses when the feature is off; the listing of the user's rooms
    fails; the search stops at a room (the member query fails, or the
    members include the system account); or every listed room is examined
    in vain and one room is created. *)
Inductive conversation (self : ServerNoticesManager) (user_id : UserId)
    (t : list Event) (o : PyErr + RoomId) : Prop :=
| conv_disabled :
    is_enabled self = false ->
    t = [] ->
    o = inl (Exception "Server notices not enabled") ->
    conversation self user_id t o
| conv_listing_failed (e : PyErr) :
    is_enabled self = true ->
    t = [Ev (get_rooms_for_user_where_membership_is user_id [INVITE; JOIN])
            (inl e)] ->
    o = inl e ->
    conversation self user_id t o
| conv_search_ended (pre : list RoomsForUser) (room : RoomsForUser)
    (post : list RoomsForUser) (answers : list (list UserId))
    (r : PyErr + list UserId) :
    is_enabled self = true ->
    length answers = length pre ->
    Forall (fun user_ids =>
              py_in (server_notices_mxid (_config self)) user_ids = false)
      answers ->
    t = Ev (get_rooms_for_user_where_membership_is user_id [INVITE; JOIN])
           (inr (pre ++ room :: post))
        :: examined pre answers
        ++ [Ev (get_users_in_room (room_id room)) r] ->
    match r with
    | inl e => o = inl e
    | inr user_ids =>
        py_in (server_notices_mxid (_config self)) user_ids = true /\
        o = inr (room_id room)
    end ->
    conversation self user_id t o
| conv_created (rooms : list RoomsForUser) (answers : list (list UserId))
    (r : PyErr + gmap string string) :
    is_enabled self = true ->
    length answers = length rooms ->
    Forall (fun user_ids =>
              py_in (server_notices_mxid (_config self)) user_ids = false)
      answers ->
    t = Ev (get_rooms_for_user_where_membership_is user_id [INVITE; JOIN])
           (inr rooms)
        :: examined rooms answers
        ++ [Ev (notice_room_creation self user_id) r] ->
    o = match r with
        | inl e => inl e
        | inr info =>
            match info !! "room_id" with
            | Some room => inr room
            | None => inl (KeyError "room_id")
            end
        end ->
    conversation self user_id t o.

(** ** Concurrent callers *)

(** Modelled from the spec: the cache behind [cachedInlineCallbacks] is not
    among the sources.  The design document describes it as "a mapping from
    user id to either an in-flight shared future or a completed result". *)
Inductive Slot : Type :=
| InFlight (g : Gen RoomId)
| Resolved (room : RoomId).

Inductive Caller : Type :=
| Idle (user_id : UserId)
| Waiting (user_id : UserId)
| Got (user_id : UserId) (o : PyErr + RoomId).

Definition caller_user (c : Caller) : UserId :=
  match c with Idle u | Waiting u | Got u _ => u end.

(** What an observer of the table sees happen: a resolution is started, an
    in-flight resolution gets the answer to a collaborator call, a
    resolution ends. *)
Inductive Note : Type :=
| Started (user_id : UserId)
| Performed (user_id : UserId) (ev : Event)
| Finished (user_id : UserId) (o : PyErr + RoomId).

(** What the reactor may do next: let caller [i] make its call, or resume
    the in-flight resolution of a user with the answer to its pending
    collaborator call. *)
Inductive Action : Type :=
| Call (i : nat)
| Advance (user_id : UserId).

Record Conc (World : Type) : Type := {
  homeserver : World;
  table : gmap UserId Slot;
  callers : list Caller;
  log : list Note
}.
Arguments homeserver {World} _.
Arguments table {World} _.
Arguments callers {World} _.
Arguments log {World} _.

Definition wake (u : UserId) (o : PyErr + RoomId) (c : Caller) : Caller :=
  match c with
  | Waiting v => if decide (v = u) then Got v o else c
  | _ => c
  end.

Definition is_start (u : UserId) (n : Note) : bool :=
  match n with Started v => bool_decide (v = u) | _ => false end.

Definition is_finish (u : UserId) (n : Note) : bool :=
  match n with Finished v _ => bool_decide (v = u) | _ => false end.

(** A resolution of [u] ended by raising. *)
Definition is_failure_end (u : UserId) (n : Note) : bool :=
  match n with
  | Finished v (inl _) => bool_decide (v = u)
  | _ => false
  end.

(** The collaborator calls made on behalf of the resolutions of [u], with
    their answers, in the order in which they were answered. *)
Fixpoint performed (u : UserId) (l : list Note) : list Event :=
  match l with
  | [] => []
  | Performed v ev :: l' =>
      if decide (v = u) then ev :: performed u l' else performed u l'
  | _ :: l' => performed u l'
  end.

(** A caller that has made its call. *)
Definition has_called (c : Caller) : bool :=
  match c with Idle _ => false | _ => true end.

Fixpoint count (p : Note -> bool) (l : list Note) : nat :=
  match l with
  | [] => 0
  | n :: l' => (if p n then 1 else 0) + count p l'
  end.

(** The completed results of a table: what a caller that never overlaps
    with another one can see of it. *)
Definition completed (tbl : gmap UserId Slot) : gmap UserId RoomId :=
  omap (fun slot => match slot with
                    | Resolved room => Some room
                    | InFlight _ => None
                    end) tbl.

Section Reactor.
Context {World : Type}.
Variable respond : forall c : Cmd, World -> World * (PyErr + Resp c).
Variable self : ServerNoticesManager.

(** The end of the in-flight resolution of [u]: a room id is filed as the
    completed result, a failure leaves no entry, and the waiting callers
    are served. *)
Definition finish (u : UserId) (o : PyErr + RoomId) (w : World)
    (notes : list Note) (s : Conc World) : Conc World :=
  {| homeserver := w;
     table := match o with
              | inr room => <[u := Resolved room]> (table s)
              | inl _ => delete u (table s)
              end;
     callers := wake u o <$> callers s;
     log := log s ++ notes ++ [Finished u o] |}.

(** Modelled from the spec: the decorator and the reactor that interleaves
    callers are not among the sources.  The design document has cooperative
    tasks "that suspend only at I/O boundaries" and a table where
    "concurrent lookups on the same key attach to the in-flight future
    rather than starting new work", a failed resolution leaving no entry.
    Accordingly a call that finds no entry starts the undecorated resolver
    and files it as in flight, a call that finds an in-flight resolution
    waits for it, and a call that finds a completed one takes its room id;
    an in-flight resolution advances from one [yield] to the next, and when
    it ends every waiting caller gets its outcome. *)
Definition step (s : Conc World) (a : Action) : Conc World :=
  match a with
  | Call i =>
      match callers s !! i with
      | Some (Idle u) =>
          match table s !! u with
          | Some (Resolved room) =>
              {| homeserver := homeserver s;
                 table := table s;
                 callers := <[i := Got u (inr room)]> (callers s);
                 log := log s |}
          | Some (InFlight _) =>
              {| homeserver := homeserver s;
                 table := table s;
                 callers := <[i := Waiting u]> (callers s);
                 log := log s |}
          | None =>
              {| homeserver := homeserver s;
                 table :=
                   <[u := InFlight (get_notice_room_for_user_orig self u)]>
                     (table s);
                 callers := <[i := Waiting u]> (callers s);
                 log := log s ++ [Started u] |}
          end
      | _ => s
      end
  | Advance u =>
      match table s !! u with
      | Some (InFlight g) =>
          match g with
          | Return room => finish u (inr room) (homeserver s) [] s
          | Raise e => finish u (inl e) (homeserver s) [] s
          | Yield c k =>
              let '(w', r) := respond c (homeserver s) in
              match r with
              | inl e => finish u (inl e) w' [Performed u (Ev c (inl e))] s
              | inr x =>
                  {| homeserver := w';
                     table := <[u := InFlight (k x)]> (table s);
                     callers := callers s;
                     log := log s ++ [Performed u (Ev c (inr x))] |}
              end
          end
      | _ => s
      end
  end.

Definition exec (sched : list Action) (s : Conc World) : Conc World :=
  foldl step s sched.

(** The user an action concerns. *)
Definition subject (s : Conc World) (a : Action) : option UserId :=
  match a with
  | Call i =>
      match callers s !! i with
      | Some (Idle v) => Some v
      | _ => None
      end
  | Advance v => Some v
  end.

(** The calls for [u] in [sched] are concurrent: each is made while no
    resolution for [u] has ended yet. *)
Fixpoint concurrent_calls (u : UserId) (sched : list Action) (s : Conc World)
    : bool :=
  match sched with
  | [] => true
  | a :: sched' =>
      match a with
      | Call i =>
          match callers s !! i with
          | Some (Idle v) =>
              negb (bool_decide (v = u)
                    && bool_decide (0 < count (is_finish u) (log s)))
          | _ => true
          end
      | Advance _ => true
      end && concurrent_calls u sched' (step s a)
  end.

(** The calls for [u] in [sched] belong to one flight: none is made after
    a resolution for [u] has ended by raising.  Each of them starts the
    resolution, finds it in flight, or finds its result; concurrent calls
    are the case where none comes after the end. *)
Fixpoint same_flight (u : UserId) (sched : list Action) (s : Conc World)
    : bool :=
  match sched with
  | [] => true
  | a :: sched' =>
      match a with
      | Call i =>
          match callers s !! i with
          | Some (Idle v) =>
              negb (bool_decide (v = u)
                    && bool_decide (0 < count (is_failure_end u) (log s)))
          | _ => true
          end
      | Advance _ => true
      end && same_flight u sched' (step s a)
  end.

End Reactor.

(** The user a note is about. *)
Definition about (n : Note) : UserId :=
  match n with Started u | Performed u _ | Finished u _ => u end.

(** Where the single-flight resolution of [u] stands: not started; in
    flight, suspended at [g], with every way [g] may go on completing the
    calls made so far to a conversation of the undecorated resolver; or
    ended with [o], the calls made being a conversation of the undecorated
    resolver ending in [o]. *)
Inductive phase {World : Type} (self : ServerNoticesManager) (u : UserId)
    (s : Conc World) : Prop :=
| not_started :
    table s !! u = None ->
    count (is_start u) (log s) = 0 ->
    count (is_finish u) (log s) = 0 ->
    performed u (log s) = [] ->
    (forall i c, callers s !! i = Some c -> caller_user c = u -> c = Idle u) ->
    phase self u s
| in_flight (g : Gen RoomId) :
    table s !! u = Some (InFlight g) ->
    count (is_start u) (log s) = 1 ->
    count (is_finish u) (log s) = 0 ->
    (forall t o, follows g t o ->
                 follows (get_notice_room_for_user_orig self u)
                   (performed u (log s) ++ t) o) ->
    (forall i c, callers s !! i = Some c -> caller_user c = u ->
                 c = Idle u \/ c = Waiting u) ->
    phase self u s
| ended (o : PyErr + RoomId) :
    table s !! u = match o with
                   | inr room => Some (Resolved room)
                   | inl _ => None
                   end ->
    count (is_start u) (log s) = 1 ->
    count (is_finish u) (log s) = 1 ->
    (forall n, n ∈ log s -> is_finish u n = true -> n = Finished u o) ->
    follows (get_notice_room_for_user_orig self u) (performed u (log s)) o ->
    (forall i c, callers s !! i = Some c -> caller_user c = u ->
                 c = Idle u \/ c = Got u o) ->
    phase self u s.

(** ** Reading a conversation *)

Definition is_listing (c : Cmd) : bool :=
  match c with
  | get_rooms_for_user_where_membership_is _ _ => true
  | _ => false
  end.

(** The rooms whose members were asked for, in the order of asking. *)
Fixpoint queried (t : list Event) : list RoomId :=
  match t with
  | [] => []
  | ev :: t' =>
      match cmd_of ev with
      | get_users_in_room room => room :: queried t'
      | _ => queried t'
      end
  end.

(** The room and the members a successful member query came back with. *)
Definition members_answer (ev : Event) : option (RoomId * list UserId) :=
  match ev with
  | Ev c r =>
      match c as c' return PyErr + Resp c' -> option (RoomId * list UserId)
      with
      | get_users_in_room room =>
          fun r => match r with
                   | inr user_ids => Some (room, user_ids)
                   | inl _ => None
                   end
      | _ => fun _ => None
      end r
  end.

(** The dict a successful room creation came back with. *)
Definition creation_answer (ev : Event) : option (gmap string string) :=
  match ev with
  | Ev c r =>
      match c as c' return PyErr + Resp c' -> option (gmap string string)
      with
      | create_room _ _ _ _ =>
          fun r => match r with
                   | inr info => Some info
                   | inl _ => None
                   end
      | _ => fun _ => None
      end r
  end.

(** A member query answered with members that include [m]. *)
Definition found_in (m : option UserId) (ev : Event) : bool :=
  match members_answer ev with
  | Some (_, user_ids) => py_in m user_ids
  | None => false
  end.

(** ** A small homeserver

    A concrete world for the collaborators, used to run the manager on the
    scenarios of the design document. *)
Module Homeserver.

Record t : Type := {
  memberships : gmap UserId (list RoomsForUser);
  members : gmap RoomId (list UserId);
  fresh : list RoomId;
  sent : list EventDict
}.

Definition respond (c : Cmd) (w : t) : t * (PyErr + Resp c) :=
  match c as c' return t * (PyErr + Resp c') with
  | get_rooms_for_user_where_membership_is user_id membership_list =>
      (w, inr (filter (fun r => membership r ∈ membership_list)
                 (default [] (memberships w !! user_id))))
  | get_users_in_room room =>
      match members w !! room with
      | Some user_ids => (w, inr user_ids)
      | None => (w, inl (Error "NotFoundError" room))
      end
  | create_room requester config _ _ =>
      match fresh w, user requester with
      | room :: rest, Some creator =>
          ({| memberships :=
                foldr (fun u m =>
                         <[u := {| room_id := room; membership := INVITE |}
                                :: default [] (m !! u)]> m)
                  (<[creator := {| room_id := room; membership := JOIN |}
                                :: default [] (memberships w !! creator)]>
                     (memberships w))
                  (invite config);
              members := <[room := creator :: invite config]> (members w);
              fresh := rest;
              sent := sent w |},
           inr {[ "room_id" := room ]})
      | _, _ => (w, inl (Error "StoreError" "cannot create room"))
      end
  | create_and_send_nonmember_event _ event_dict _ =>
      ({| memberships := memberships w;
          members := members w;
          fresh := fresh w;
          sent := event_dict :: sent w |},
       inr tt)
  end.

(** Something happening elsewhere in the homeserver: [who] joins [room]. *)
Definition join_room (room : RoomId) (who : UserId) (w : t) : t :=
  {| memberships := memberships w;
     members := <[room := who :: default [] (members w !! room)]> (members w);
     fresh := fresh w;
     sent := sent w |}.

(** Something else happening elsewhere: [who] leaves [room]. *)
Definition leave_room (room : RoomId) (who : UserId) (w : t) : t :=
  {| memberships :=
       <[who := (fun r => if decide (room_id r = room)
                          then {| room_id := room; membership := LEAVE |}
                          else r)
                <$> default [] (memberships w !! who)]> (memberships w);
     members :=
       <[room := filter (fun x => x <> who) (default [] (members w !! room))]>
         (members w);
     fresh := fresh w;
     sent := sent w |}.

Definition cfg : ServerNoticesManager :=
  {| _config := {| server_notices_mxid := Some "@notices:hs";
                   server_notices_room_name := "Server Notices";
                   server_notices_mxid_display_name := "Notices" |} |}.

Definition cfg_off : ServerNoticesManager :=
  {| _config := {| server_notices_mxid := None;
                   server_notices_room_name := "Server Notices";
                   server_notices_mxid_display_name := "Notices" |} |}.

(** [@u1:hs] shares no room with the system account; [@u2:hs] is in three
    rooms, the second and third of which the system account is in;
    [@u3:hs] is listed in a room the store knows no members of. *)
Definition w0 : t :=
  {| memberships :=
       {[ "@u1:hs" := [ {| room_id := "!a"; membership := JOIN |} ];
          "@u2:hs" := [ {| room_id := "!a"; membership := JOIN |};
                        {| room_id := "!old"; membership := LEAVE |};
                        {| room_id := "!r2"; membership := JOIN |};
                        {| room_id := "!r3"; membership := INVITE |} ];
          "@u3:hs" := [ {| room_id := "!gone"; membership := JOIN |} ] ]};
     members :=
       {[ "!a" := [ "@u1:hs"; "@u2:hs" ];
          "!r2" := [ "@u2:hs"; "@notices:hs" ];
          "!r3" := [ "@notices:hs" ] ]};
     fresh := [ "!r1"; "!r4" ];
     sent := [] |}.

End Homeserver.

(** ** A careless room creation handler

    A second world: the store knows no rooms, room creation answers a dict
    without a room id, and event submission is down. *)
Module Careless.

Definition respond (c : Cmd) (w : unit) : unit * (PyErr + Resp c) :=
  match c as c' return unit * (PyErr + Resp c') with
  | get_rooms_for_user_where_membership_is _ _ => (w, inr [])
  | get_users_in_room _ => (w, inr [])
  | create_room _ _ _ _ => (w, inr {[ "room_alias" := "#notices:hs" ]})
  | create_and_send_nonmember_event _ _ _ =>
      (w, inl (Error "SendError" "federation is down"))
  end.

End Careless.

(** * Properties *)

(** ** The memoisation table *)

Section Table.
Context {World : Type}.
Variable respond : forall c : Cmd, World -> World * (PyErr + Resp c).
Implicit Types (self : ServerNoticesManager) (s : Sys World).
Implicit Types (u v : UserId) (room : RoomId) (e : PyErr).

Lemma resolve_hit self u s room :
  cache s !! u = Some room ->
  get_notice_room_for_user respond self u s
  = {| final := s; calls := []; outcome := inr room |}.
Proof.
  intros Hhit. unfold get_notice_room_for_user, cachedInlineCallbacks.
  by rewrite Hhit.
Qed.

Lemma resolve_miss self u s :
  cache s !! u = None ->
  get_notice_room_for_user respond self u s
  = let r := run respond (get_notice_room_for_user_orig self u) (world s) in
    {| final := {| world := final r;
                   cache := match outcome r with
                            | inr room => <[u := room]> (cache s)
                            | inl _ => cache s
                            end |};
       calls := calls r;
       outcome := outcome r |}.
Proof.
  intros Hmiss. unfold get_notice_room_for_user, cachedInlineCallbacks.
  by rewrite Hmiss.
Qed.

(** A successful resolution leaves its answer in the table. *)
Lemma resolve_records self u s room :
  outcome (get_notice_room_for_user respond self u s) = inr room ->
  cache (final (get_notice_room_for_user respond self u s)) !! u = Some room.
Proof.
  destruct (cache s !! u) as [room'|] eqn:Hu.
  - rewrite (resolve_hit _ _ _ _ Hu). simpl. congruence.
  - rewrite (resolve_miss _ _ _ Hu). simpl. intros ->.
    apply lookup_insert_eq.
Qed.

(** A failed resolution started from a miss and leaves the table as it
    was. *)
Lemma resolve_failure_table self u s e :
  outcome (get_notice_room_for_user respond self u s) = inl e ->
  cache s !! u = None /\
  cache (final (get_notice_room_for_user respond self u s)) = cache s.
Proof.
  destruct (cache s !! u) as [room'|] eqn:Hu.
  - rewrite (resolve_hit _ _ _ _ Hu). simpl. discriminate.
  - rewrite (resolve_miss _ _ _ Hu). simpl. by intros ->.
Qed.

(** Resolving for [u] leaves the entries of all other users alone. *)
Lemma resolve_other self u v s :
  u <> v ->
  cache (final (get_notice_room_for_user respond self u s)) !! v
  = cache s !! v.
Proof.
  intros Huv. destruct (cache s !! u) as [room'|] eqn:Hu.
  - by rewrite (resolve_hit _ _ _ _ Hu).
  - rewrite (resolve_miss _ _ _ Hu). simpl.
    destruct (outcome _); [done|]. by apply lookup_insert_ne.
Qed.

(** Entries are never dropped nor overwritten. *)
Lemma resolve_keeps self u v s room :
  cache s !! v = Some room ->
  cache (final (get_notice_room_for_user respond self u s)) !! v = Some room.
Proof.
  intros Hv. destruct (decide (u = v)) as [->|Huv].
  - by rewrite (resolve_hit _ _ _ _ Hv).
  - by rewrite resolve_other.
Qed.

(** Sending touches the table only through the resolver. *)
Lemma send_table self u content s :
  cache (final (send_notice respond self u content s))
  = cache (final (get_notice_room_for_user respond self u s)).
Proof.
  unfold send_notice, mbind, m_mbind, m_bind.
  destruct (outcome (get_notice_room_for_user respond self u s)); [done|].
  simpl. unfold m_bind. simpl.
  by destruct (respond _ _) as [w' [e|[]]].
Qed.

Lemma exec_op_keeps self op s v room :
  cache s !! v = Some room ->
  cache (exec_op respond self s op) !! v = Some room.
Proof.
  intros Hv. destruct op as [u|u content|f]; simpl.
  - by apply resolve_keeps.
  - rewrite send_table. by apply resolve_keeps.
  - done.
Qed.

Lemma exec_ops_keeps self ops s v room :
  cache s !! v = Some room ->
  cache (exec_ops respond self ops s) !! v = Some room.
Proof.
  revert s. induction ops as [|op ops IH]; intros s Hv; [done|].
  apply IH. by apply exec_op_keeps.
Qed.

(** C1 (idempotence).  Once a resolution for a user has succeeded with
    some room id, every later resolution for that user -- immediately
    afterwards ([ops = []]) or after any further activity of the manager
    and of the rest of the homeserver -- answers the same, cached room id,
    makes no collaborator call at all (hence neither a storage query nor a
    room creation) and leaves the state as it is. *)
Theorem resolution_idempotent self u s room ops :
  outcome (get_notice_room_for_user respond self u s) = inr room ->
  let s' :=
    exec_ops respond self ops
      (final (get_notice_room_for_user respond self u s)) in
  get_notice_room_for_user respond self u s'
  = {| final := s'; calls := []; outcome := inr room |}.
Proof.
  intros Hok s'. apply resolve_hit. subst s'.
  by apply exec_ops_keeps, resolve_records.
Qed.

(** C10 (frame).  A resolution for [u] never creates, changes or removes
    the table entry of another user [v]: whatever the table holds for [v]
    before the call -- a room or nothing -- it holds afterwards, whether
    the resolution is called directly or on behalf of [send_notice]. *)
Theorem resolution_frame self u v s :
  u <> v ->
  cache (final (get_notice_room_for_user respond self u s)) !! v
  = cache s !! v /\
  forall content,
    cache (final (send_notice respond self u content s)) !! v = cache s !! v.
Proof.
  intros Huv. split.
  - by apply resolve_other.
  - intros content. rewrite send_table. by apply resolve_other.
Qed.

End Table.

(** ** What the resolver says to its collaborators *)

Section Conversations.
Implicit Types (self : ServerNoticesManager) (u : UserId).
Implicit Types (t : list Event) (rooms : list RoomsForUser).

Lemma follows_failure {A : Type} (g : Gen A) t (o : PyErr + A) ev e :
  follows g t o -> ev ∈ t -> failure_of ev = Some e -> o = inl e.
Proof.
  revert t. induction g as [a|e'|c k IH]; simpl; intros t Ht Hev Hfail.
  - destruct Ht as [-> _]. by apply elem_of_nil in Hev.
  - destruct Ht as [-> _]. by apply elem_of_nil in Hev.
  - destruct Ht as [(e' & -> & ->)|(x & t' & -> & Ht')].
    + apply list_elem_of_singleton in Hev as ->. simpl in Hfail. congruence.
    + apply elem_of_cons in Hev as [->|Hev]; [done|]. by eapply IH.
Qed.

Lemma times_app p t t' : times p (t ++ t') = (times p t + times p t').
Proof. induction t as [|ev t IH]; simpl; [done|]. rewrite IH. lia. Qed.

Lemma times_none p t :
  Forall (fun ev => p (cmd_of ev) = false) t -> times p t = 0.
Proof. induction 1 as [|ev t Hev _ IH]; simpl; [done|]. by rewrite Hev, IH. Qed.

Lemma examined_store_queries rooms uss :
  Forall (fun ev => is_create_room (cmd_of ev) = false) (examined rooms uss).
Proof.
  revert uss.
  induction rooms as [|room rooms IH]; intros [|us uss]; simpl; auto.
Qed.

(** The conversation of the search loop: it stops at the first room whose
    members include the system account, or at the first member query that
    fails, or examines every room in vain and goes on with [orelse]. *)
Lemma for_room_in_follows m rooms orelse t o :
  follows (for_room_in m rooms orelse) t o ->
  (exists pre room post uss r,
      rooms = pre ++ room :: post /\ length uss = length pre /\
      Forall (fun us => py_in m us = false) uss /\
      t = examined pre uss ++ [Ev (get_users_in_room (room_id room)) r] /\
      match r with
      | inl e => o = inl e
      | inr us => py_in m us = true /\ o = inr (room_id room)
      end) \/
  (exists uss t',
      length uss = length rooms /\
      Forall (fun us => py_in m us = false) uss /\
      t = examined rooms uss ++ t' /\ follows orelse t' o).
Proof.
  revert t. induction rooms as [|room rooms IH]; intros t Ht.
  - right. by exists [], t.
  - simpl in Ht. destruct Ht as [(e & -> & ->)|(us & t' & -> & Ht')].
    + left. by exists [], room, rooms, [], (inl e).
    + destruct (py_in m us) eqn:Hin.
      * simpl in Ht'. destruct Ht' as [-> ->].
        left. by exists [], room, rooms, [], (inr us).
      * apply IH in Ht'
          as [(pre & room' & post & uss & r & -> & Hlen & Hall & -> & Hr)
             |(uss & t'' & Hlen & Hall & -> & Ho)].
        -- left. exists (room :: pre), room', post, (us :: uss), r.
           simpl. rewrite Hlen. by repeat split; [constructor|..].
        -- right. exists (us :: uss), t''.
           simpl. rewrite Hlen. by repeat split; [constructor|..].
Qed.

Lemma orig_disabled self u :
  is_enabled self = false ->
  get_notice_room_for_user_orig self u
  = Raise (Exception "Server notices not enabled").
Proof. intros H. unfold get_notice_room_for_user_orig. by rewrite H. Qed.

Lemma orig_enabled self u :
  is_enabled self = true ->
  get_notice_room_for_user_orig self u
  = Yield (get_rooms_for_user_where_membership_is u [INVITE; JOIN])
      (fun rooms =>
         for_room_in (server_notices_mxid (_config self)) rooms
           (Yield (notice_room_creation self u)
              (fun info => room ← getitem info "room_id"; Return room))).
Proof. intros H. unfold get_notice_room_for_user_orig. by rewrite H. Qed.

Lemma orig_follows self u t o :
  follows (get_notice_room_for_user_orig self u) t o ->
  conversation self u t o.
Proof.
  destruct (is_enabled self) eqn:Hen.
  - rewrite (orig_enabled _ _ Hen). simpl.
    intros [(e & -> & ->)|(rooms & t' & -> & Ht')].
    { by eapply conv_listing_failed. }
    apply for_room_in_follows in Ht'
      as [(pre & room & post & uss & r & -> & Hlen & Hall & -> & Hr)
         |(uss & t'' & Hlen & Hall & -> & Ho)].
    { by eapply conv_search_ended. }
    simpl in Ho. destruct Ho as [(e & -> & ->)|(info & t3 & -> & Ho)].
    { by eapply (conv_created _ _ _ _ rooms uss (inl e)). }
    eapply (conv_created _ _ _ _ rooms uss (inr info)); try done.
    * f_equal. f_equal. unfold getitem in Ho.
      destruct (info !! "room_id"); simpl in Ho; by destruct Ho as [-> _].
    * unfold getitem in Ho.
      destruct (info !! "room_id"); simpl in Ho; by destruct Ho as [_ ->].
  - rewrite (orig_disabled _ _ Hen). simpl. intros [-> ->].
    by apply conv_disabled.
Qed.

Lemma for_room_in_skip m pre rest orelse uss t o :
  length uss = length pre ->
  Forall (fun us => py_in m us = false) uss ->
  follows (for_room_in m rest orelse) t o ->
  follows (for_room_in m (pre ++ rest) orelse) (examined pre uss ++ t) o.
Proof.
  revert uss. induction pre as [|room pre IH]; intros [|us uss] Hlen Hall Ht;
    try done.
  apply Forall_cons in Hall as [Hus Hall]. simpl. right.
  exists us, (examined pre uss ++ t). split; [done|]. rewrite Hus.
  apply IH; [by injection Hlen|done..].
Qed.

(** The characterisation is exact: every listed conversation is one the
    undecorated resolver can have. *)
Lemma conversation_follows self u t o :
  conversation self u t o ->
  follows (get_notice_room_for_user_orig self u) t o.
Proof.
  intros [Hen -> ->|e Hen -> ->|pre room post uss r Hen Hlen Hall -> Hr
         |rooms uss r Hen Hlen Hall -> ->].
  - by rewrite (orig_disabled _ _ Hen).
  - rewrite (orig_enabled _ _ Hen). simpl. left. by exists e.
  - rewrite (orig_enabled _ _ Hen). simpl. right.
    eexists _, _. split; [done|].
    apply for_room_in_skip; [done..|]. simpl. destruct r as [e|us].
    + left. by exists e.
    + right. exists us, []. split; [done|]. destruct Hr as [-> ->]. done.
  - rewrite (orig_enabled _ _ Hen). simpl. right.
    eexists _, _. split; [done|].
    rewrite <- (app_nil_r rooms) at 1.
    apply for_room_in_skip; [done..|]. simpl. destruct r as [e|info].
    + left. by exists e.
    + right. exists info, []. split; [done|].
      unfold getitem. by destruct (info !! "room_id").
Qed.

End Conversations.

(** ** The resolver *)

Section Resolver.
Context {World : Type}.
Variable respond : forall c : Cmd, World -> World * (PyErr + Resp c).
Implicit Types (self : ServerNoticesManager) (s : Sys World).
Implicit Types (u v : UserId) (room : RoomId) (e : PyErr).

Lemma run_follows {A : Type} (g : Gen A) (w : World) :
  follows g (calls (run respond g w)) (outcome (run respond g w)).
Proof.
  revert w. induction g as [a|e|c k IH]; intros w; simpl; [done..|].
  destruct (respond c w) as [w' [e|x]]; simpl; eauto.
Qed.

(** A resolution either is served from the table, without a call, or has
    one of the conversations of the undecorated resolver. *)
Lemma resolve_calls self u s :
  (exists room, cache s !! u = Some room /\
                calls (get_notice_room_for_user respond self u s) = []) \/
  (cache s !! u = None /\
   conversation self u
     (calls (get_notice_room_for_user respond self u s))
     (outcome (get_notice_room_for_user respond self u s))).
Proof.
  destruct (cache s !! u) as [room|] eqn:Hu.
  - left. exists room. by rewrite (resolve_hit _ _ _ _ _ Hu).
  - right. split; [done|]. rewrite (resolve_miss _ _ _ _ Hu). simpl.
    apply orig_follows, run_follows.
Qed.

Lemma split_at_last {X : Type} (P : X -> bool) (l pre post : list X)
    (x y : X) :
  l ++ [y] = pre ++ x :: post ->
  Forall (fun z => P z = false) l -> P x = true ->
  pre = l /\ x = y /\ post = [].
Proof.
  revert pre. induction l as [|a l IH]; intros pre Heq Hall Hx.
  - destruct pre as [|b pre]; simpl in Heq.
    + by injection Heq as <- <-.
    + injection Heq as _ Heq. by destruct pre.
  - apply Forall_cons in Hall as [Ha Hall].
    destruct pre as [|b pre]; simpl in Heq.
    + injection Heq as -> _. congruence.
    + injection Heq as -> Heq.
      by destruct (IH _ Heq Hall Hx) as (-> & -> & ->).
Qed.

(** Where a room creation sits in a conversation of the resolver. *)
Lemma conversation_creation self u t o pre ev post :
  conversation self u t o ->
  t = pre ++ ev :: post -> is_create_room (cmd_of ev) = true ->
  post = [] /\ cmd_of ev = notice_room_creation self u /\
  exists rooms answers,
    length answers = length rooms /\
    Forall (fun user_ids =>
              py_in (server_notices_mxid (_config self)) user_ids = false)
      answers /\
    pre = Ev (get_rooms_for_user_where_membership_is u [INVITE; JOIN])
            (inr rooms) :: examined rooms answers.
Proof.
  intros [Hen -> ->|e Hen -> ->|pre' room post' uss r Hen Hlen Hall -> Hr
         |rooms uss r Hen Hlen Hall -> ->] Heq Hev.
  - by destruct pre.
  - destruct pre as [|? pre]; simpl in Heq.
    + injection Heq as <- _. done.
    + injection Heq as _ Heq. by destruct pre.
  - rewrite app_comm_cons in Heq.
    apply (split_at_last (fun z => is_create_room (cmd_of z))) in Heq
      as (_ & -> & _); [done| |done].
    constructor; [done|]. apply examined_store_queries.
  - rewrite app_comm_cons in Heq.
    apply (split_at_last (fun z => is_create_room (cmd_of z))) in Heq
      as (-> & -> & ->); [|constructor; [done|apply examined_store_queries]
                          |done].
    split; [done|]. split; [done|]. by exists rooms, uss.
Qed.

(** C6 (search before creation).  If a resolution calls the room-creation
    collaborator at all, that call is the last one it makes, and before it
    the listing of the user's invite/join rooms was obtained and the
    members of every listed room, in listing order, were fetched, none of
    the answers containing the system account.  A generator waits for one
    call at a time, so nothing runs alongside the search. *)
Theorem creation_only_after_search self u s pre ev post :
  calls (get_notice_room_for_user respond self u s) = pre ++ ev :: post ->
  is_create_room (cmd_of ev) = true ->
  post = [] /\
  exists rooms answers,
    length answers = length rooms /\
    Forall (fun user_ids =>
              py_in (server_notices_mxid (_config self)) user_ids = false)
      answers /\
    pre = Ev (get_rooms_for_user_where_membership_is u [INVITE; JOIN])
            (inr rooms) :: examined rooms answers.
Proof.
  intros Heq Hev.
  destruct (resolve_calls self u s) as [(room & _ & Hnil)|[_ Hconv]].
  - rewrite Hnil in Heq. by destruct pre.
  - by destruct (conversation_creation _ _ _ _ _ _ _ Hconv Heq Hev)
      as (? & _ & ?).
Qed.

(** C9 (creation is exempt from rate limiting).  Every room-creation call
    a resolution makes passes [ratelimit=False]. *)
Theorem creation_not_ratelimited self u s ev requester config ratelimit
    profile :
  ev ∈ calls (get_notice_room_for_user respond self u s) ->
  cmd_of ev = create_room requester config ratelimit profile ->
  ratelimit = false.
Proof.
  intros Hin Hcmd.
  apply list_elem_of_split in Hin as (pre & post & Heq).
  destruct (resolve_calls self u s) as [(room & _ & Hnil)|[_ Hconv]].
  - rewrite Hnil in Heq. by destruct pre.
  - destruct (conversation_creation _ _ _ _ _ _ _ Hconv Heq)
      as (_ & Hc & _); [by rewrite Hcmd|].
    rewrite Hcmd in Hc. by injection Hc.
Qed.

(** C8 (failures are not cached).  When a resolution fails with [e]: any
    collaborator call of that resolution that raised, raised exactly [e];
    the table is as before and holds nothing for the user; and the next
    resolution for the user runs the undecorated resolver afresh. *)
Theorem failed_resolution_not_cached self u s e :
  let r := get_notice_room_for_user respond self u s in
  outcome r = inl e ->
  (forall ev e', ev ∈ calls r -> failure_of ev = Some e' -> e' = e) /\
  cache (final r) = cache s /\
  cache (final r) !! u = None /\
  let again := get_notice_room_for_user respond self u (final r) in
  let fresh := run respond (get_notice_room_for_user_orig self u)
                 (world (final r)) in
  calls again = calls fresh /\ outcome again = outcome fresh /\
  world (final again) = final fresh.
Proof.
  intros r Hfail. subst r. cbv zeta.
  destruct (resolve_failure_table _ _ _ _ _ Hfail) as [Hmiss Hsame].
  rewrite Hsame.
  assert (cache (final (get_notice_room_for_user respond self u s)) !! u
          = None) as Hmiss' by by rewrite Hsame.
  split; [|split; [done|split; [done|]]].
  - intros ev e' Hev Hev'.
    rewrite (resolve_miss _ _ _ _ Hmiss) in Hev, Hfail. simpl in *.
    pose proof (follows_failure _ _ _ _ _ (run_follows _ _) Hev Hev').
    congruence.
  - by rewrite (resolve_miss _ _ _ _ Hmiss').
Qed.

End Resolver.

(** ** Search, creation, dispatch and the enablement gate *)

Section Manager.
Context {World : Type}.
Variable respond : forall c : Cmd, World -> World * (PyErr + Resp c).
Implicit Types (self : ServerNoticesManager) (s : Sys World) (w : World).
Implicit Types (u v : UserId) (room : RoomsForUser) (e : PyErr).

Lemma is_enabled_false self :
  is_enabled self = false <-> server_notices_mxid (_config self) = None.
Proof.
  unfold is_enabled.
  case_bool_decide; destruct (server_notices_mxid _); naive_solver.
Qed.

Lemma is_enabled_true self m :
  server_notices_mxid (_config self) = Some m -> is_enabled self = true.
Proof.
  intros H. unfold is_enabled. rewrite H. by apply bool_decide_eq_true.
Qed.

(** The search loop over a store that answers every room of [pre] with
    members not including the system account, and is left unchanged by
    these queries. *)
Lemma run_for_room_in_skip m pre rest orelse w :
  (forall room, room ∈ pre ->
     exists user_ids,
       respond (get_users_in_room (room_id room)) w = (w, inr user_ids) /\
       py_in m user_ids = false) ->
  exists answers,
    length answers = length pre /\
    Forall (fun user_ids => py_in m user_ids = false) answers /\
    let r := run respond (for_room_in m rest orelse) w in
    run respond (for_room_in m (pre ++ rest) orelse) w
    = {| final := final r;
         calls := examined pre answers ++ calls r;
         outcome := outcome r |}.
Proof.
  induction pre as [|room pre IH]; intros Hpre.
  - exists []. repeat split; [done|]. simpl. by destruct (run _ _ _).
  - destruct (Hpre room) as (us & Hq & Hno); [by left|].
    destruct IH as (answers & Hlen & Hall & Hrun).
    { intros r Hr. apply Hpre. by right. }
    exists (us :: answers). split; [simpl; by rewrite Hlen|].
    split; [by constructor|].
    simpl. rewrite Hq, Hno. simpl in Hrun. by rewrite Hrun.
Qed.

Lemma not_in_py_in (m : UserId) (user_ids : list UserId) :
  m ∉ user_ids <-> py_in (Some m) user_ids = false.
Proof. simpl. by rewrite bool_decide_eq_false. Qed.

(** C2 (an existing room is reused).  Take a user without a table entry
    while the feature is on.  If the store lists [pre ++ room :: post] as
    the user's invite/join rooms, reports members without the system
    account for every room of [pre] and members including it for [room]
    -- so that [room] is the first listed room the system account is in --
    then the resolver returns that room's id, never calls the
    room-creation collaborator, and records the room for the user. *)
Theorem existing_room_is_reused self u s m pre room post
    (user_ids : list UserId) :
  server_notices_mxid (_config self) = Some m ->
  cache s !! u = None ->
  respond (get_rooms_for_user_where_membership_is u [INVITE; JOIN])
    (world s) = (world s, inr (pre ++ room :: post)) ->
  (forall room', room' ∈ pre ->
     exists user_ids' : list UserId,
       respond (get_users_in_room (room_id room')) (world s)
       = (world s, inr user_ids') /\ m ∉ user_ids') ->
  respond (get_users_in_room (room_id room)) (world s)
  = (world s, inr user_ids) ->
  m ∈ user_ids ->
  let res := get_notice_room_for_user respond self u s in
  outcome res = inr (room_id room) /\
  times is_create_room (calls res) = 0 /\
  final res
  = {| world := world s; cache := <[u := room_id room]> (cache s) |}.
Proof.
  intros Hm Hmiss Hlist Hpre Hroom Hin res. subst res.
  rewrite (resolve_miss _ _ _ _ Hmiss).
  rewrite (orig_enabled _ _ (is_enabled_true _ _ Hm)), Hm.
  cbv zeta. cbn [run]. rewrite Hlist.
  destruct (run_for_room_in_skip (Some m) pre (room :: post)
              (Yield (notice_room_creation self u)
                 (fun info => room0 ← getitem info "room_id"; Return room0))
              (world s))
    as (answers & Hlen & Hall & Hrun).
  { intros room' Hr. destruct (Hpre room' Hr) as (us & Hq & Hno).
    exists us. by rewrite <- not_in_py_in. }
  cbv zeta in Hrun. rewrite Hrun. clear Hrun.
  simpl. rewrite Hroom. simpl.
  rewrite (bool_decide_eq_true_2 _ Hin). simpl.
  repeat split. apply times_none.
  apply Forall_app. split; [apply examined_store_queries|by constructor].
Qed.

(** C3 (a missing room is created).  Take a user without a table entry
    while the feature is on.  If the store lists [rooms] as the user's
    invite/join rooms and reports, for every one of them, members without
    the system account, then the resolver's calls are the listing, one
    member query per listed room, and exactly one call of the
    room-creation collaborator, made on behalf of the system account with
    preset private chat, the configured room name, the power-level
    override [users_default = -10], the user as only invitee,
    [ratelimit=False] and the configured display name as creator join
    profile; and when that call answers a dict holding a room id, this id
    is returned and recorded for the user. *)
Theorem missing_room_is_created self u s m (rooms : list RoomsForUser) :
  server_notices_mxid (_config self) = Some m ->
  cache s !! u = None ->
  respond (get_rooms_for_user_where_membership_is u [INVITE; JOIN])
    (world s) = (world s, inr rooms) ->
  (forall room, room ∈ rooms ->
     exists user_ids : list UserId,
       respond (get_users_in_room (room_id room)) (world s)
       = (world s, inr user_ids) /\ m ∉ user_ids) ->
  let res := get_notice_room_for_user respond self u s in
  let creation :=
    create_room (create_requester (Some m))
      {| preset := PRIVATE_CHAT;
         name := server_notices_room_name (_config self);
         power_level_content_override := {[ "users_default" := (-10)%Z ]};
         invite := [u] |}
      false
      {| displayname := server_notices_mxid_display_name (_config self) |}
  in
  let answer := respond creation (world s) in
  (exists answers,
      length answers = length rooms /\
      calls res
      = Ev (get_rooms_for_user_where_membership_is u [INVITE; JOIN])
          (inr rooms)
        :: examined rooms answers ++ [Ev creation (answer.2)]) /\
  times is_create_room (calls res) = 1 /\
  (forall (info : gmap string string) (new_room : RoomId),
      answer.2 = inr info -> info !! "room_id" = Some new_room ->
      outcome res = inr new_room /\
      final res
      = {| world := answer.1; cache := <[u := new_room]> (cache s) |}).
Proof.
  intros Hm Hmiss Hlist Hrooms res creation answer. subst res.
  rewrite (resolve_miss _ _ _ _ Hmiss).
  rewrite (orig_enabled _ _ (is_enabled_true _ _ Hm)).
  unfold notice_room_creation. rewrite Hm.
  cbv zeta. cbn [run]. rewrite Hlist.
  destruct (run_for_room_in_skip (Some m) rooms []
              (Yield creation
                 (fun info => room0 ← getitem info "room_id"; Return room0))
              (world s))
    as (answers & Hlen & Hall & Hrun).
  { intros room' Hr. destruct (Hrooms room' Hr) as (us & Hq & Hno).
    exists us. by rewrite <- not_in_py_in. }
  cbv zeta in Hrun. rewrite app_nil_r in Hrun.
  subst creation. rewrite Hrun. clear Hrun.
  cbn [for_room_in run]. subst answer.
  match goal with
  | |- context [respond (create_room ?a ?b ?c ?d) ?w] =>
      destruct (respond (create_room a b c d) w) as [w' [e|info]]
  end.
  - simpl. split; [by exists answers|]. split.
    { rewrite times_app, (times_none _ _ (examined_store_queries _ _)).
      done. }
    intros info new_room Hinfo. discriminate.
  - simpl in info. split; [|split].
    + exists answers. split; [done|]. simpl.
      unfold getitem. by destruct (info !! "room_id").
    + simpl.
      rewrite times_app, (times_none _ _ (examined_store_queries _ _)).
      simpl. unfold getitem. by destruct (info !! "room_id").
    + intros info' new_room [= <-] Hroom. simpl.
      unfold getitem. rewrite Hroom. done.
Qed.

(** *** Dispatch *)

Lemma send_notice_unfold self u content s :
  send_notice respond self u content s
  = let r := get_notice_room_for_user respond self u s in
    match outcome r with
    | inl e => {| final := final r; calls := calls r; outcome := inl e |}
    | inr room_id =>
        let answer :=
          respond (notice_submission self room_id content)
            (world (final r)) in
        {| final := {| world := answer.1; cache := cache (final r) |};
           calls :=
             calls r ++ [Ev (notice_submission self room_id content)
                           (answer.2)];
           outcome := answer.2 |}
    end.
Proof.
  unfold send_notice, mbind, m_mbind, m_bind. cbv zeta.
  destruct (outcome (get_notice_room_for_user respond self u s))
    as [e|room_id]; [done|].
  unfold await, yield, notice_submission. simpl.
  by destruct (respond _ _) as [w' [e|[]]].
Qed.

Lemma conversation_no_submission self u t o :
  conversation self u t o ->
  Forall (fun ev => is_event_creation (cmd_of ev) = false) t.
Proof.
  assert (forall rooms uss,
            Forall (fun ev => is_event_creation (cmd_of ev) = false)
              (examined rooms uss)) as Hex.
  { induction rooms as [|room rooms IH]; intros [|us uss]; simpl; auto. }
  intros [Hen -> ->|e Hen -> ->|pre' room post' uss r Hen Hlen Hall -> Hr
         |rooms uss r Hen Hlen Hall -> ->].
  - constructor.
  - by repeat constructor.
  - constructor; [done|]. apply Forall_app. split; [apply Hex|].
    by repeat constructor.
  - constructor; [done|]. apply Forall_app. split; [apply Hex|].
    by repeat constructor.
Qed.

(** C5 (dispatch).  When the resolution for the user succeeds with a room
    id, [send_notice] makes the calls of that resolution and then exactly
    one more: an event submission on behalf of the system account, of type
    message, into the resolved room, sent by the configured system
    account, carrying the caller's content, with [ratelimit=False].  The
    resolution itself submits no event, and the send ends the way the
    submission does. *)
Theorem send_notice_submits_one_event self u content s resolved :
  let r := get_notice_room_for_user respond self u s in
  outcome r = inr resolved ->
  let submission :=
    create_and_send_nonmember_event
      (create_requester (server_notices_mxid (_config self)))
      {| ev_type := Message;
         ev_room_id := resolved;
         ev_sender := server_notices_mxid (_config self);
         ev_content := content |}
      false in
  let answer := respond submission (world (final r)) in
  send_notice respond self u content s
  = {| final := {| world := answer.1; cache := cache (final r) |};
       calls := calls r ++ [Ev submission (answer.2)];
       outcome := answer.2 |} /\
  times is_event_creation (calls r) = 0 /\
  times is_event_creation (calls (send_notice respond self u content s))
  = 1.
Proof.
  intros r Hok submission answer. subst r answer submission.
  assert (times is_event_creation
            (calls (get_notice_room_for_user respond self u s)) = 0)
    as Hnone.
  { apply times_none.
    destruct (resolve_calls respond self u s)
      as [(room & _ & ->)|[_ Hconv]]; [constructor|].
    by eapply conversation_no_submission. }
  split; [|split; [done|]].
  - rewrite send_notice_unfold. cbv zeta. by rewrite Hok.
  - rewrite send_notice_unfold. cbv zeta. rewrite Hok. simpl.
    rewrite times_app, Hnone. done.
Qed.

(** A failed resolution fails the send, and nothing is submitted. *)
Lemma send_notice_resolution_failed self u content s e :
  let r := get_notice_room_for_user respond self u s in
  outcome r = inl e ->
  send_notice respond self u content s
  = {| final := final r; calls := calls r; outcome := inl e |}.
Proof.
  intros r Hfail. subst r. rewrite send_notice_unfold. cbv zeta.
  by rewrite Hfail.
Qed.

(** *** The enablement gate *)

Lemma resolve_disabled self u s :
  is_enabled self = false -> cache s !! u = None ->
  get_notice_room_for_user respond self u s
  = {| final := s; calls := [];
       outcome := inl (Exception "Server notices not enabled") |}.
Proof.
  intros Hoff Hmiss. rewrite (resolve_miss _ _ _ _ Hmiss).
  rewrite (orig_disabled _ _ Hoff). simpl. by destruct s.
Qed.

Lemma send_disabled self u content s :
  is_enabled self = false -> cache s !! u = None ->
  send_notice respond self u content s
  = {| final := s; calls := [];
       outcome := inl (Exception "Server notices not enabled") |}.
Proof.
  intros Hoff Hmiss. rewrite send_notice_unfold. cbv zeta.
  by rewrite (resolve_disabled _ _ _ Hoff Hmiss).
Qed.

(** While the feature is off the table stays empty. *)
Lemma disabled_table_empty self s :
  is_enabled self = false -> reachable respond self s -> cache s = ∅.
Proof.
  intros Hoff (w & ops & ->).
  assert (forall s0, cache s0 = ∅ ->
                     cache (exec_ops respond self ops s0) = ∅) as Hgen.
  { induction ops as [|op ops IH]; intros s0 Hs0; [done|].
    apply IH. destruct op as [u|u content|f]; simpl; [| |done].
    - rewrite resolve_disabled; [done..|]. by rewrite Hs0.
    - rewrite send_disabled; [done..|]. by rewrite Hs0. }
  by apply Hgen.
Qed.

(** C4 (enablement gate).  When no system notices account is configured,
    [is_enabled] is false, the undecorated resolver raises before it
    yields anything, and in every state the manager can be in both the
    resolver and [send_notice] fail with the "not enabled" exception
    without a single collaborator call and without changing anything. *)
Theorem enablement_gate self :
  server_notices_mxid (_config self) = None ->
  is_enabled self = false /\
  (forall u, get_notice_room_for_user_orig self u
             = Raise (Exception "Server notices not enabled")) /\
  forall s, reachable respond self s ->
    forall u,
      get_notice_room_for_user respond self u s
      = {| final := s; calls := [];
           outcome := inl (Exception "Server notices not enabled") |} /\
      forall content,
        send_notice respond self u content s
        = {| final := s; calls := [];
             outcome := inl (Exception "Server notices not enabled") |}.
Proof.
  intros Hnone. apply is_enabled_false in Hnone as Hoff.
  split; [done|]. split; [intros u; by apply orig_disabled|].
  intros s Hs u.
  assert (cache s !! u = None) as Hmiss.
  { by rewrite (disabled_table_empty _ _ Hoff Hs). }
  split; [by apply resolve_disabled|].
  intros content. by apply send_disabled.
Qed.

End Manager.

(** ** Single flight *)

Section SingleFlight.
Context {World : Type}.
Variable respond : forall c : Cmd, World -> World * (PyErr + Resp c).
Variable self : ServerNoticesManager.
Implicit Types (s : Conc World) (u v : UserId) (l : list Note).

Lemma count_app p l l' : count p (l ++ l') = count p l + count p l'.
Proof. induction l as [|n l IH]; simpl; [done|]. rewrite IH. lia. Qed.

Lemma count_others (p : UserId -> Note -> bool) u l :
  (forall n, about n <> u -> p u n = false) ->
  Forall (fun n => about n <> u) l -> count (p u) l = 0.
Proof.
  intros Hp. induction 1 as [|n l Hn _ IH]; simpl; [done|].
  by rewrite (Hp _ Hn), IH.
Qed.

Lemma count_elem p l n : n ∈ l -> p n = true -> 0 < count p l.
Proof.
  induction l as [|n0 l IH]; intros Hn Hp; [by apply elem_of_nil in Hn|].
  simpl. apply elem_of_cons in Hn as [->|Hn].
  - rewrite Hp. lia.
  - pose proof (IH Hn Hp). lia.
Qed.

Lemma count_pos p l : 0 < count p l -> exists n, n ∈ l /\ p n = true.
Proof.
  induction l as [|n0 l IH]; simpl; [lia|].
  destruct (p n0) eqn:Hp; intros Hpos.
  - exists n0. split; [by left|done].
  - destruct IH as (n & Hn & Hpn); [lia|]. exists n. split; [by right|done].
Qed.

Lemma is_start_other u n : about n <> u -> is_start u n = false.
Proof. destruct n; simpl; try done. intros. by apply bool_decide_eq_false. Qed.

Lemma is_finish_other u n : about n <> u -> is_finish u n = false.
Proof. destruct n; simpl; try done. intros. by apply bool_decide_eq_false. Qed.

Lemma is_failure_end_finish u n : is_failure_end u n = true -> is_finish u n = true.
Proof. destruct n as [| |v [e|room]]; simpl; done. Qed.

Lemma performed_app u l l' :
  performed u (l ++ l') = performed u l ++ performed u l'.
Proof.
  induction l as [|n l IH]; simpl; [done|].
  destruct n; try done. case_decide; simpl; by rewrite IH.
Qed.

Lemma performed_others u l :
  Forall (fun n => about n <> u) l -> performed u l = [].
Proof.
  induction 1 as [|n l Hn _ IH]; simpl; [done|].
  destruct n; try done. simpl in Hn. by rewrite decide_False.
Qed.

Lemma wake_user v o c : caller_user (wake v o c) = caller_user c.
Proof. destruct c; simpl; try done. by case_decide. Qed.

Lemma wake_other u v o c : caller_user c = u -> u <> v -> wake v o c = c.
Proof.
  destruct c; simpl; try done. intros -> Hne. case_decide; congruence.
Qed.

Lemma wake_called v o c : has_called c = true -> has_called (wake v o c) = true.
Proof. destruct c; simpl; try done. by case_decide. Qed.

(** A step that concerns only other users leaves the phase of [u] alone. *)
Lemma phase_frame u s s' extra :
  table s' !! u = table s !! u ->
  log s' = log s ++ extra -> Forall (fun n => about n <> u) extra ->
  (forall i c, callers s' !! i = Some c -> caller_user c = u ->
               callers s !! i = Some c) ->
  phase self u s -> phase self u s'.
Proof.
  intros Htab Hlog Hextra Hcallers Hphase.
  assert (forall p, (forall n, about n <> u -> p u n = false) ->
                    count (p u) (log s') = count (p u) (log s)) as Hcount.
  { intros p Hp. rewrite Hlog, count_app, (count_others p u extra Hp Hextra).
    lia. }
  pose proof (Hcount is_start (is_start_other u)) as Hs.
  pose proof (Hcount is_finish (is_finish_other u)) as Hf.
  assert (performed u (log s') = performed u (log s)) as Hp.
  { by rewrite Hlog, performed_app, (performed_others u extra), app_nil_r. }
  destruct Hphase as [H1 H2 H3 H4 H5|g H1 H2 H3 H4 H5|o H1 H2 H3 H4 H5 H6].
  - apply not_started; rewrite ?Htab, ?Hs, ?Hf, ?Hp; eauto.
  - apply (in_flight _ _ _ g); rewrite ?Htab, ?Hs, ?Hf, ?Hp; eauto.
  - apply (ended _ _ _ o); rewrite ?Htab, ?Hs, ?Hf, ?Hp; eauto.
    intros n Hn Hfin. rewrite Hlog in Hn. apply elem_of_app in Hn as [Hn|Hn].
    + by apply H4.
    + rewrite Forall_forall in Hextra.
      by rewrite (is_finish_other _ _ (Hextra _ Hn)) in Hfin.
Qed.

Lemma callers_insert_other u v s i (c' : Caller) :
  caller_user c' = v -> v <> u ->
  forall j c, <[i := c']> (callers s) !! j = Some c -> caller_user c = u ->
              callers s !! j = Some c.
Proof.
  intros Hc' Hne j c Hj Hu.
  apply list_lookup_insert_Some in Hj as [(-> & -> & _)|[_ Hj]]; [|done].
  congruence.
Qed.

Lemma callers_wake_other u v o s :
  v <> u ->
  forall j c, (wake v o <$> callers s) !! j = Some c -> caller_user c = u ->
              callers s !! j = Some c.
Proof.
  intros Hne j c Hj Hu. rewrite list_lookup_fmap in Hj.
  destruct (callers s !! j) as [c0|]; [|done]. simpl in Hj.
  injection Hj as <-. rewrite wake_user in Hu.
  by rewrite (wake_other u v o c0).
Qed.

Lemma finish_other u v o w notes s :
  v <> u -> Forall (fun n => about n <> u) notes ->
  phase self u s -> phase self u (finish v o w notes s).
Proof.
  intros Hne Hnotes.
  apply (phase_frame u s _ (notes ++ [Finished v o])); simpl.
  - destruct o; [by apply lookup_delete_ne|by apply lookup_insert_ne].
  - done.
  - apply Forall_app. split; [done|]. by repeat constructor.
  - by apply callers_wake_other.
Qed.

Lemma step_other u s a :
  subject s a <> Some u ->
  phase self u s -> phase self u (step respond self s a).
Proof.
  intros Hsub Hphase. destruct a as [i|v]; simpl in *.
  - destruct (callers s !! i) as [[v|v|v o]|] eqn:Hi; try done.
    assert (v <> u) as Hne by congruence.
    destruct (table s !! v) as [[g|room]|] eqn:Hv.
    + apply (phase_frame u s _ []); simpl; try done.
      * by rewrite app_nil_r.
      * by apply (callers_insert_other u v).
    + apply (phase_frame u s _ []); simpl; try done.
      * by rewrite app_nil_r.
      * by apply (callers_insert_other u v).
    + apply (phase_frame u s _ [Started v]); simpl; try done.
      * by apply lookup_insert_ne.
      * by repeat constructor.
      * by apply (callers_insert_other u v).
  - assert (v <> u) as Hne by congruence.
    destruct (table s !! v) as [[g|room]|] eqn:Hv; try done.
    destruct g as [room|e|c k].
    + by apply finish_other.
    + by apply finish_other.
    + destruct (respond c (homeserver s)) as [w' [e|x]].
      * apply finish_other; [done| |done]. by repeat constructor.
      * apply (phase_frame u s _ [Performed v (Ev c (inr x))]); simpl;
          try done.
        -- by apply lookup_insert_ne.
        -- by repeat constructor.
Qed.

(** A call for [u] that does not come after a failed resolution starts the
    resolution if there is none, joins it if it is in flight, and takes its
    result if it has ended. *)
Lemma step_call u s i :
  callers s !! i = Some (Idle u) ->
  count (is_failure_end u) (log s) = 0 ->
  phase self u s -> phase self u (step respond self s (Call i)).
Proof.
  intros Hi Hfail Hphase. simpl. rewrite Hi.
  assert (forall c0 j c, <[i := c0]> (callers s) !! j = Some c ->
                         (callers s !! j = Some c \/ c = c0)) as Hins.
  { intros c0 j c Hj.
    apply list_lookup_insert_Some in Hj as [(-> & <- & _)|[_ Hj]]; auto. }
  destruct Hphase as [H1 H2 H3 H4 H5|g H1 H2 H3 H4 H5|o H1 H2 H3 H4 H5 H6].
  - rewrite H1.
    apply (in_flight _ _ _ (get_notice_room_for_user_orig self u)); simpl.
    + apply lookup_insert_eq.
    + rewrite count_app, H2. simpl. by rewrite bool_decide_eq_true_2.
    + rewrite count_app, H3. done.
    + intros t o Ht. by rewrite performed_app, H4.
    + intros j c Hj Hu. destruct (Hins _ j c Hj) as [Hold| ->]; eauto.
  - rewrite H1. apply (in_flight _ _ _ g); simpl; try done.
    intros j c Hj Hu. destruct (Hins _ j c Hj) as [Hold| ->]; eauto.
  - destruct o as [e|room].
    + exfalso. destruct (count_pos (is_finish u) (log s)) as (n & Hn & Hfin);
        [lia|].
      rewrite (H4 n Hn Hfin) in Hn.
      pose proof (count_elem (is_failure_end u) _ _ Hn) as Hpos.
      simpl in Hpos. rewrite bool_decide_eq_true_2 in Hpos by done.
      specialize (Hpos eq_refl). lia.
    + rewrite H1. apply (ended _ _ _ (inr room)); simpl; try done.
      intros j c Hj Hu. destruct (Hins _ j c Hj) as [Hold| ->]; eauto.
Qed.

Lemma callers_wake u o s :
  (forall i c, callers s !! i = Some c -> caller_user c = u ->
               c = Idle u \/ c = Waiting u) ->
  forall i c, (wake u o <$> callers s) !! i = Some c -> caller_user c = u ->
              c = Idle u \/ c = Got u o.
Proof.
  intros Hold i c Hi Hu. rewrite list_lookup_fmap in Hi.
  destruct (callers s !! i) as [c0|] eqn:Hc0; [|done]. simpl in Hi.
  injection Hi as <-. rewrite wake_user in Hu.
  destruct (Hold _ _ Hc0 Hu) as [-> | ->]; simpl; [by left|right].
  by rewrite decide_True.
Qed.

Lemma finish_mine u o w notes s g :
  table s !! u = Some (InFlight g) ->
  count (is_start u) (log s) = 1 ->
  count (is_finish u) (log s) = 0 ->
  count (is_start u) notes = 0 ->
  count (is_finish u) notes = 0 ->
  follows (get_notice_room_for_user_orig self u)
    (performed u (log s) ++ performed u notes) o ->
  (forall i c, callers s !! i = Some c -> caller_user c = u ->
               c = Idle u \/ c = Waiting u) ->
  phase self u (finish u o w notes s).
Proof.
  intros Htab Hs Hf Hns Hnf Hfol Hcallers.
  apply (ended _ _ _ o); simpl.
  - destruct o; [by rewrite lookup_delete_eq|by rewrite lookup_insert_eq].
  - rewrite !count_app, Hs, Hns. simpl. lia.
  - rewrite !count_app, Hf, Hnf. simpl. by rewrite bool_decide_eq_true_2.
  - intros n Hn Hn'. apply elem_of_app in Hn as [Hn|Hn].
    { pose proof (count_elem _ _ _ Hn Hn'). lia. }
    apply elem_of_app in Hn as [Hn|Hn].
    { pose proof (count_elem _ _ _ Hn Hn'). lia. }
    by apply list_elem_of_singleton in Hn.
  - rewrite !performed_app. simpl. by rewrite app_nil_r.
  - by apply callers_wake.
Qed.

(** Resuming the resolution of [u]. *)
Lemma step_advance u s :
  phase self u s -> phase self u (step respond self s (Advance u)).
Proof.
  intros Hphase. simpl.
  destruct (table s !! u) as [[g|room]|] eqn:Htab; [|done..].
  destruct Hphase as [H1 H2 H3 H4 H5|g' H1 H2 H3 H4 H5|o H1 H2 H3 H4 H5 H6];
    [congruence| |destruct o; congruence].
  assert (g' = g) as -> by congruence.
  destruct g as [room|e|c k].
  - apply (finish_mine u _ _ _ _ _ Htab); simpl; try done.
    apply H4. done.
  - apply (finish_mine u _ _ _ _ _ Htab); simpl; try done.
    apply H4. done.
  - destruct (respond c (homeserver s)) as [w' [e|x]].
    + apply (finish_mine u _ _ _ _ _ Htab); simpl; try done.
      rewrite decide_True by done. apply H4. simpl. left. by exists e.
    + apply (in_flight _ _ _ (k x)); simpl.
      * apply lookup_insert_eq.
      * rewrite count_app, H2. simpl. lia.
      * rewrite count_app, H3. simpl. lia.
      * intros t o Ht. rewrite performed_app. simpl.
        rewrite decide_True by done. rewrite <- app_assoc. simpl.
        apply H4. simpl. right. by exists x, t.
      * done.
Qed.

(** The phase of [u] survives every schedule whose calls for [u] belong to
    one flight. *)
Lemma exec_phase u sched s :
  phase self u s -> same_flight respond self u sched s = true ->
  phase self u (exec respond self sched s).
Proof.
  revert s. induction sched as [|a sched IH]; intros s Hphase Hcc; [done|].
  simpl in Hcc. apply andb_true_iff in Hcc as [Hguard Hcc].
  apply IH; [|done]. clear IH Hcc.
  destruct (decide (subject s a = Some u)) as [Hsub|Hsub];
    [|by apply step_other].
  destruct a as [i|v]; simpl in Hsub.
  - destruct (callers s !! i) as [[v|v|v o]|] eqn:Hi; try done.
    injection Hsub as ->. apply step_call; [done| |done].
    rewrite bool_decide_eq_true_2 in Hguard by done. simpl in Hguard.
    apply negb_true_iff, bool_decide_eq_false in Hguard. lia.
  - injection Hsub as ->. by apply step_advance.
Qed.

Lemma same_flight_advance u n s :
  same_flight respond self u (replicate n (Advance u)) s = true.
Proof. revert s. induction n as [|n IH]; intros s; simpl; [done|apply IH]. Qed.

(** Concurrent calls belong to one flight. *)
Lemma concurrent_same_flight u sched s :
  concurrent_calls respond self u sched s = true ->
  same_flight respond self u sched s = true.
Proof.
  revert s. induction sched as [|a sched IH]; intros s; simpl; [done|].
  intros [Hguard Hcc]%andb_true_iff. rewrite (IH _ Hcc), andb_true_r.
  destruct a as [i|v]; [|done].
  destruct (callers s !! i) as [[v|v|v o]|]; try done.
  apply negb_true_iff in Hguard. apply negb_true_iff.
  apply andb_false_iff in Hguard as [Hv|Hfin]; [by rewrite Hv|].
  apply andb_false_iff. right.
  apply bool_decide_eq_false in Hfin. apply bool_decide_eq_false.
  intros Hpos. apply Hfin.
  destruct (count_pos _ _ Hpos) as (n & Hn & Hfail).
  by eapply count_elem, is_failure_end_finish.
Qed.

(** *** What happens to the callers *)

(** A step keeps every caller's user, and a caller that has called has
    called. *)
Lemma step_caller_kept s a i c :
  callers s !! i = Some c ->
  exists c', callers (step respond self s a) !! i = Some c' /\
             caller_user c' = caller_user c /\
             (has_called c = true -> has_called c' = true).
Proof.
  intros Hi.
  assert (forall o v, exists c',
            (wake v o <$> callers s) !! i = Some c' /\
            caller_user c' = caller_user c /\
            (has_called c = true -> has_called c' = true)) as Hwake.
  { intros o v. exists (wake v o c). rewrite list_lookup_fmap, Hi.
    split; [done|]. split; [apply wake_user|apply wake_called]. }
  assert (forall j v c0, callers s !! j = Some (Idle v) -> caller_user c0 = v ->
            exists c', <[j := c0]> (callers s) !! i = Some c' /\
                       caller_user c' = caller_user c /\
                       (has_called c = true -> has_called c' = true)) as Hins.
  { intros j v c0 Hj Hc0. destruct (decide (j = i)) as [->|Hne].
    - exists c0. rewrite list_lookup_insert_eq by by eapply lookup_lt_Some.
      rewrite Hi in Hj. injection Hj as ->. done.
    - exists c. by rewrite list_lookup_insert_ne. }
  destruct a as [j|v]; simpl.
  - destruct (callers s !! j) as [[v|v|v o]|] eqn:Hj; eauto.
    destruct (table s !! v) as [[g|room]|]; simpl; by eapply Hins.
  - destruct (table s !! v) as [[g|room]|]; eauto.
    destruct g as [room|e|c0 k]; simpl; eauto.
    destruct (respond c0 (homeserver s)) as [w' [e|x]]; simpl; eauto.
Qed.

(** A caller that makes its call is no longer idle afterwards. *)
Lemma step_call_called u s i :
  callers s !! i = Some (Idle u) ->
  exists c', callers (step respond self s (Call i)) !! i = Some c' /\
             caller_user c' = u /\ has_called c' = true.
Proof.
  intros Hi. simpl. rewrite Hi.
  assert (i < length (callers s)) as Hlen by by eapply lookup_lt_Some.
  destruct (table s !! u) as [[g|room]|]; simpl;
    eexists; (split; [by apply list_lookup_insert_eq|done]).
Qed.

(** A caller that is not asked to call stays idle. *)
Lemma step_idle_kept u s a i :
  callers s !! i = Some (Idle u) -> a <> Call i ->
  callers (step respond self s a) !! i = Some (Idle u).
Proof.
  intros Hi Ha.
  assert (forall o v, (wake v o <$> callers s) !! i = Some (Idle u)) as Hwake.
  { intros o v. by rewrite list_lookup_fmap, Hi. }
  destruct a as [j|v]; simpl.
  - assert (j <> i) as Hne by congruence.
    destruct (callers s !! j) as [[v|v|v o]|]; try done.
    destruct (table s !! v) as [[g|room]|]; simpl;
      by rewrite list_lookup_insert_ne.
  - destruct (table s !! v) as [[g|room]|]; try done.
    destruct g as [room|e|c0 k]; simpl; try done.
    destruct (respond c0 (homeserver s)) as [w' [e|x]]; simpl; done.
Qed.

Lemma exec_called u sched s i c :
  callers s !! i = Some c -> caller_user c = u ->
  has_called c = true \/ Call i ∈ sched ->
  exists c', callers (exec respond self sched s) !! i = Some c' /\
             caller_user c' = u /\ has_called c' = true.
Proof.
  revert s c. induction sched as [|a sched IH]; intros s c Hi Hu Hor.
  - destruct Hor as [Hc|Hin]; [by exists c|by apply elem_of_nil in Hin].
  - simpl. destruct (has_called c) eqn:Hc.
    + destruct (step_caller_kept s a i c Hi) as (c1 & Hi1 & Hu1 & Hc1).
      apply (IH _ c1); [done|congruence|left; auto].
    + destruct Hor as [?|Hin]; [done|].
      assert (c = Idle u) as -> by (destruct c; simpl in *; congruence).
      apply elem_of_cons in Hin as [<-|Hin].
      * destruct (step_call_called u s i Hi) as (c1 & Hi1 & Hu1 & Hc1).
        apply (IH _ c1); auto.
      * destruct (step_caller_kept s a i _ Hi) as (c1 & Hi1 & Hu1 & _).
        apply (IH _ c1); auto.
Qed.

Lemma exec_idle u sched s i :
  callers s !! i = Some (Idle u) -> Call i ∉ sched ->
  callers (exec respond self sched s) !! i = Some (Idle u).
Proof.
  revert s. induction sched as [|a sched IH]; intros s Hi Hnot; [done|].
  simpl. apply IH; [|set_solver].
  apply step_idle_kept; [done|]. set_solver.
Qed.

(** *** What happens to the collaborators *)

Lemma conversation_creations u t o :
  conversation self u t o -> times is_create_room t <= 1.
Proof.
  intros [Hen -> Ho|e Hen -> Ho|pre room post uss r Hen Hlen Hall -> Hr
         |rooms uss r Hen Hlen Hall -> Ho]; simpl; try lia.
  - rewrite times_app, (times_none _ _ (examined_store_queries _ _)).
    simpl. lia.
  - rewrite times_app, (times_none _ _ (examined_store_queries _ _)).
    simpl. lia.
Qed.

(** A generator can always go on to an end. *)
Lemma gen_can_end {A : Type} (g : Gen A) : exists t o, follows g t o.
Proof.
  destruct g as [a|e|c k].
  - by exists [], (inr a).
  - by exists [], (inl e).
  - exists [Ev c (inl (Exception ""))], (inl (Exception "")).
    simpl. left. by eexists.
Qed.

Lemma phase_creations u s :
  phase self u s -> times is_create_room (performed u (log s)) <= 1.
Proof.
  intros [H1 H2 H3 H4 H5|g H1 H2 H3 H4 H5|o H1 H2 H3 H4 H5 H6].
  - rewrite H4. simpl. lia.
  - destruct (gen_can_end g) as (t & o & Ht).
    pose proof (conversation_creations u _ _ (orig_follows _ _ _ _ (H4 _ _ Ht)))
      as Hle.
    rewrite times_app in Hle. lia.
  - by eapply conversation_creations, orig_follows.
Qed.

(** An in-flight resolution ends after finitely many resumptions. *)
Lemma advance_ends u g s :
  table s !! u = Some (InFlight g) ->
  exists n, forall g',
    table (exec respond self (replicate n (Advance u)) s) !! u
    <> Some (InFlight g').
Proof.
  revert s. induction g as [room|e|c k IH]; intros s Htab.
  - exists 1. intros g'. simpl. rewrite Htab. simpl.
    by rewrite lookup_insert_eq.
  - exists 1. intros g'. simpl. rewrite Htab. simpl.
    by rewrite lookup_delete_eq.
  - destruct (respond c (homeserver s)) as [w' [e|x]] eqn:Hr.
    + exists 1. intros g'. simpl. rewrite Htab, Hr. simpl.
      by rewrite lookup_delete_eq.
    + destruct (IH x (step respond self s (Advance u))) as [n Hn].
      { simpl. rewrite Htab, Hr. simpl. apply lookup_insert_eq. }
      by exists (S n).
Qed.

(** *** One caller at a time

    Letting a single caller make its call and resuming the resolution until
    it ends is the decorated resolver of the sequential runtime. *)

Lemma advance_run u g s :
  table s !! u = Some (InFlight g) ->
  exists n,
    let s' := exec respond self (replicate n (Advance u)) s in
    let r := run respond g (homeserver s) in
    homeserver s' = final r /\
    table s' = match outcome r with
               | inr room => <[u := Resolved room]> (table s)
               | inl _ => delete u (table s)
               end /\
    callers s' = wake u (outcome r) <$> callers s.
Proof.
  revert s. induction g as [room|e|c k IH]; intros s Htab.
  - exists 1. simpl. by rewrite Htab.
  - exists 1. simpl. by rewrite Htab.
  - destruct (respond c (homeserver s)) as [w' [e|x]] eqn:Hr.
    + exists 1. simpl. by rewrite Htab, Hr.
    + destruct (IH x (step respond self s (Advance u))) as (n & Hw & Ht & Hc).
      { simpl. rewrite Htab, Hr. simpl. apply lookup_insert_eq. }
      exists (S n). cbv zeta in *. simpl in *.
      rewrite Htab, Hr in *. simpl in *. rewrite Hw, Ht, Hc.
      split; [done|]. split; [|done].
      destruct (outcome _);
        [by rewrite delete_insert_eq|by rewrite insert_insert_eq].
Qed.

Lemma sequential_schedule u i s :
  callers s !! i = Some (Idle u) ->
  (forall g, table s !! u <> Some (InFlight g)) ->
  let seq :=
    get_notice_room_for_user respond self u
      {| world := homeserver s; cache := completed (table s) |} in
  exists n,
    let s' := exec respond self (Call i :: replicate n (Advance u)) s in
    callers s' !! i = Some (Got u (outcome seq)) /\
    homeserver s' = world (final seq) /\
    completed (table s') = cache (final seq).
Proof.
  intros Hi Hno seq. subst seq.
  assert (i < length (callers s)) as Hlen by by eapply lookup_lt_Some.
  destruct (table s !! u) as [[g|room]|] eqn:Htab; [by destruct (Hno g)| |].
  - exists 0. simpl. rewrite Hi, Htab. simpl.
    rewrite (resolve_hit _ _ _ _ room).
    + split; [|done]. by apply list_lookup_insert_eq.
    + unfold completed. simpl. rewrite lookup_omap, Htab. done.
  - rewrite resolve_miss.
    2:{ unfold completed. simpl. by rewrite lookup_omap, Htab. }
    destruct (advance_run u (get_notice_room_for_user_orig self u)
                (step respond self s (Call i))) as (n & Hw & Ht & Hc).
    { simpl. rewrite Hi, Htab. simpl. apply lookup_insert_eq. }
    exists n. cbv zeta in *. simpl in *. rewrite Hi, Htab in *. simpl in *.
    rewrite Hw, Ht, Hc. split; [|split; [done|]].
    + rewrite list_lookup_fmap, list_lookup_insert_eq by done. simpl.
      by rewrite decide_True.
    + unfold completed. destruct (outcome _) as [e|room].
      * rewrite delete_insert_eq, delete_id; done.
      * rewrite insert_insert_eq. by apply omap_insert_Some.
Qed.

(** C7 (single flight).  Start from a table without an entry for [u], an
    empty history, and any number of callers about to resolve [u] (next to
    callers for other users).  Run any interleaving of calls and
    resumptions in which the calls for [u] belong to one flight -- in
    particular any in which they are concurrent, [concurrent_same_flight].
    Call "the callers" those that the schedule lets call for [u].  Then:
    at most one resolution for [u] is started; as soon as there is a
    caller exactly one is, and every caller waits for it or has its
    outcome, while a caller never asked to call stays idle; the calls made
    for [u] are those of one run of the undecorated resolver, among them
    at most one room creation; any two outcomes handed out agree; once the
    resolution has ended with [o], the calls made are a complete
    conversation of the undecorated resolver ending in [o] and every caller
    holds [o]; and finitely many further resumptions end the resolution
    and hand every caller its outcome. *)
Theorem single_flight u sched s0 :
  table s0 !! u = None ->
  log s0 = [] ->
  Forall (fun c => caller_user c = u -> c = Idle u) (callers s0) ->
  same_flight respond self u sched s0 = true ->
  let s := exec respond self sched s0 in
  let caller i := Call i ∈ sched /\ callers s0 !! i = Some (Idle u) in
  count (is_start u) (log s) <= 1 /\
  (forall i, caller i ->
     count (is_start u) (log s) = 1 /\
     (callers s !! i = Some (Waiting u) \/
      exists o, callers s !! i = Some (Got u o))) /\
  (forall i, callers s0 !! i = Some (Idle u) -> Call i ∉ sched ->
     callers s !! i = Some (Idle u)) /\
  times is_create_room (performed u (log s)) <= 1 /\
  (forall i j o o',
     callers s !! i = Some (Got u o) -> callers s !! j = Some (Got u o') ->
     o = o') /\
  (forall o, Finished u o ∈ log s ->
     follows (get_notice_room_for_user_orig self u) (performed u (log s)) o /\
     forall i, caller i -> callers s !! i = Some (Got u o)) /\
  exists n o,
    let s' := exec respond self (replicate n (Advance u)) s in
    forall i, caller i ->
      callers s' !! i = Some (Got u o) /\
      Finished u o ∈ log s' /\
      count (is_start u) (log s') = 1 /\
      follows (get_notice_room_for_user_orig self u) (performed u (log s')) o.
Proof.
  intros Htab Hlog Hcallers Hcc s caller.
  assert (phase self u s0) as Hphase0.
  { apply not_started; rewrite ?Hlog; try done.
    intros i c Hi Hu. rewrite Forall_lookup in Hcallers. by eapply Hcallers. }
  pose proof (exec_phase u sched s0 Hphase0 Hcc) as Hphase. fold s in Hphase.
  assert (forall i, caller i ->
            exists c, callers s !! i = Some c /\ caller_user c = u /\
                      has_called c = true) as Hcalled.
  { intros i [Hin Hi]. apply (exec_called u sched s0 i (Idle u)); auto. }
  assert (forall s1, phase self u s1 ->
            forall i c, callers s1 !! i = Some c -> caller_user c = u ->
                        has_called c = true ->
            count (is_start u) (log s1) = 1 /\
            (c = Waiting u \/ exists o, c = Got u o)) as Hserved.
  { intros s1 [H1 H2 H3 H4 H5|g H1 H2 H3 H4 H5|o H1 H2 H3 H4 H5 H6]
      i c Hi Hu Hc.
    - rewrite (H5 _ _ Hi Hu) in Hc. done.
    - split; [done|]. destruct (H5 _ _ Hi Hu) as [->| ->]; [done|by left].
    - split; [done|]. destruct (H6 _ _ Hi Hu) as [->| ->]; [done|].
      right. by exists o. }
  split; [|split; [|split; [|split; [|split; [|split]]]]].
  - destruct Hphase as [H1 H2 H3 H4 H5|g H1 H2 H3 H4 H5|o H1 H2 H3 H4 H5 H6];
      lia.
  - intros i Hi. destruct (Hcalled i Hi) as (c & Hc & Hu & Hcd).
    destruct (Hserved s Hphase i c Hc Hu Hcd) as [Hone [->|[o ->]]]; eauto.
  - intros i Hi Hnot. by apply exec_idle.
  - by apply phase_creations.
  - intros i j o o' Hi Hj.
    destruct Hphase as [H1 H2 H3 H4 H5|g H1 H2 H3 H4 H5|o1 H1 H2 H3 H4 H5 H6].
    + by pose proof (H5 _ _ Hi eq_refl).
    + by destruct (H5 _ _ Hi eq_refl).
    + destruct (H6 _ _ Hi eq_refl) as [|Ho]; [done|].
      destruct (H6 _ _ Hj eq_refl) as [|Ho']; [done|]. congruence.
  - intros o Ho.
    assert (is_finish u (Finished u o) = true) as Hfin.
    { simpl. by apply bool_decide_eq_true_2. }
    pose proof (count_elem _ _ _ Ho Hfin) as Hpos.
    destruct Hphase as [H1 H2 H3 H4 H5|g H1 H2 H3 H4 H5|o1 H1 H2 H3 H4 H5 H6];
      [lia..|].
    assert (Finished u o = Finished u o1) as [= ->] by by apply H4.
    split; [done|]. intros i Hi.
    destruct (Hcalled i Hi) as (c & Hc & Hu & Hcd).
    destruct (H6 _ _ Hc Hu) as [->| ->]; done.
  - assert (exists n, forall g,
              table (exec respond self (replicate n (Advance u)) s) !! u
              <> Some (InFlight g)) as [n Hn].
    { destruct (table s !! u) as [[g|room]|] eqn:Hu.
      - by apply (advance_ends u g).
      - exists 0. simpl. intros g. by rewrite Hu.
      - exists 0. simpl. intros g. by rewrite Hu. }
    exists n.
    pose proof (exec_phase u _ s Hphase (same_flight_advance u n s)) as Hend.
    assert (forall i, caller i ->
              exists c,
                callers (exec respond self (replicate n (Advance u)) s) !! i
                = Some c /\ caller_user c = u /\ has_called c = true)
      as Hcalled'.
    { intros i Hi. destruct (Hcalled i Hi) as (c & Hc & Hu & Hcd).
      apply (exec_called u _ s i c); auto. }
    destruct Hend as [H1 H2 H3 H4 H5|g H1 H2 H3 H4 H5|o H1 H2 H3 H4 H5 H6].
    + exists (inl (Exception "")). cbv zeta. intros i Hi.
      destruct (Hcalled' i Hi) as (c & Hc & Hu & Hcd).
      rewrite (H5 _ _ Hc Hu) in Hcd. done.
    + by destruct (Hn g).
    + exists o. cbv zeta. intros i Hi.
      destruct (Hcalled' i Hi) as (c & Hc & Hu & Hcd).
      split; [destruct (H6 _ _ Hc Hu) as [->| ->]; done|].
      split; [|done].
      assert (0 < count (is_finish u)
                    (log (exec respond self (replicate n (Advance u)) s)))
        as Hpos by (rewrite H3; lia).
      destruct (count_pos _ _ Hpos) as (m & Hm & Hfin).
      by rewrite <- (H4 m Hm Hfin).
Qed.

End SingleFlight.

(** ** The scenarios of the design document, run on the small homeserver *)

Module Scenarios.
Import Homeserver.

Definition hello : Json := JObj [("body", JStr "hello")].

(** Scenario A: [@u1:hs] shares no room with the system account. *)
Example scenario_A :
  let res := get_notice_room_for_user respond cfg "@u1:hs" (initial w0) in
  map cmd_of (calls res)
  = [ get_rooms_for_user_where_membership_is "@u1:hs" [INVITE; JOIN];
      get_users_in_room "!a";
      create_room {| user := Some "@notices:hs" |}
        {| preset := PRIVATE_CHAT; name := "Server Notices";
           power_level_content_override := {[ "users_default" := (-10)%Z ]};
           invite := ["@u1:hs"] |}
        false {| displayname := "Notices" |} ] /\
  outcome res = inr "!r1" /\
  cache (final res) = {[ "@u1:hs" := "!r1" ]}.
Proof. vm_compute. done. Qed.

(** Scenario B: [@u2:hs] already shares [!r2] with the system account. *)
Example scenario_B :
  let res := get_notice_room_for_user respond cfg "@u2:hs" (initial w0) in
  map cmd_of (calls res)
  = [ get_rooms_for_user_where_membership_is "@u2:hs" [INVITE; JOIN];
      get_users_in_room "!a";
      get_users_in_room "!r2" ] /\
  outcome res = inr "!r2".
Proof. vm_compute. done. Qed.

(** Scenario C: a notice for the unresolved [@u1:hs]. *)
Example scenario_C :
  let res := send_notice respond cfg "@u1:hs" hello (initial w0) in
  outcome res = inr tt /\
  sent (world (final res))
  = [ {| ev_type := Message; ev_room_id := "!r1";
         ev_sender := Some "@notices:hs"; ev_content := hello |} ] /\
  filter (fun c => bool_decide (is_event_creation c = true))
    (map cmd_of (calls res))
  = [ create_and_send_nonmember_event {| user := Some "@notices:hs" |}
        {| ev_type := Message; ev_room_id := "!r1";
           ev_sender := Some "@notices:hs"; ev_content := hello |}
        false ].
Proof. vm_compute. done. Qed.

(** The design notes record that the table has no invalidation path.  Here
    [@u2:hs] is resolved to [!r2]; then the system account joins [!a], the
    first room of the user's listing.  The undecorated resolver would now
    answer [!a]; the decorated one keeps answering [!r2] from the table. *)
Example recorded_room_is_kept :
  let s :=
    exec_ops respond cfg
      [OpResolve "@u2:hs"; Elsewhere (join_room "!a" "@notices:hs")]
      (initial w0) in
  get_notice_room_for_user respond cfg "@u2:hs" s
  = {| final := s; calls := []; outcome := inr "!r2" |} /\
  outcome (run respond (get_notice_room_for_user_orig cfg "@u2:hs") (world s))
  = inr "!a".
Proof. vm_compute. done. Qed.

(** C2 as stated, without the condition that the table holds nothing for
    the user, fails.  In the state reached by resolving [@u2:hs] and then
    letting the system account join [!a], the store lists [!a] first for
    the user and reports the system account among its members, so [!a] is
    the first listed room the system account is in; yet the resolver
    answers the recorded [!r2]. *)
Lemma recorded_room_beats_first_shared_room :
  let s :=
    exec_ops respond cfg
      [OpResolve "@u2:hs"; Elsewhere (join_room "!a" "@notices:hs")]
      (initial w0) in
  let first_shared := {| room_id := "!a"; membership := JOIN |} in
  reachable respond cfg s /\
  server_notices_mxid (_config cfg) = Some "@notices:hs" /\
  respond (get_rooms_for_user_where_membership_is "@u2:hs" [INVITE; JOIN])
    (world s)
  = (world s,
     inr ([] ++ first_shared
             :: [ {| room_id := "!r2"; membership := JOIN |};
                  {| room_id := "!r3"; membership := INVITE |} ])) /\
  respond (get_users_in_room (room_id first_shared)) (world s)
  = (world s, inr ["@notices:hs"; "@u1:hs"; "@u2:hs"]) /\
  "@notices:hs" ∈ ["@notices:hs"; "@u1:hs"; "@u2:hs"] /\
  outcome (get_notice_room_for_user respond cfg "@u2:hs" s) = inr "!r2" /\
  (outcome (get_notice_room_for_user respond cfg "@u2:hs" s)
   <> inr (room_id first_shared)).
Proof.
  intros s first_shared.
  split; [by exists w0, [OpResolve "@u2:hs";
                         Elsewhere (join_room "!a" "@notices:hs")]|].
  split; [reflexivity|]. split; [vm_compute; reflexivity|].
  split; [vm_compute; reflexivity|]. split; [by left|].
  assert (outcome (get_notice_room_for_user respond cfg "@u2:hs" s)
          = inr "!r2") as Hout by (vm_compute; reflexivity).
  split; [exact Hout|]. rewrite Hout. discriminate.
Qed.

(** C3 as stated, without the condition that the table holds nothing for
    the user, fails.  In the state reached by resolving [@u1:hs] (which
    creates [!r1]) and then letting the user leave [!r1], the store lists
    only [!a] for the user and reports members without the system account,
    so no listed room holds the system account; yet the resolver makes no
    call at all, hence no room creation, and answers the recorded [!r1]. *)
Lemma recorded_room_prevents_creation :
  let s :=
    exec_ops respond cfg
      [OpResolve "@u1:hs"; Elsewhere (leave_room "!r1" "@u1:hs")]
      (initial w0) in
  let res := get_notice_room_for_user respond cfg "@u1:hs" s in
  reachable respond cfg s /\
  server_notices_mxid (_config cfg) = Some "@notices:hs" /\
  respond (get_rooms_for_user_where_membership_is "@u1:hs" [INVITE; JOIN])
    (world s)
  = (world s, inr [ {| room_id := "!a"; membership := JOIN |} ]) /\
  respond (get_users_in_room "!a") (world s)
  = (world s, inr ["@u1:hs"; "@u2:hs"]) /\
  ("@notices:hs" ∉ ["@u1:hs"; "@u2:hs"]) /\
  calls res = [] /\
  outcome res = inr "!r1" /\
  (times is_create_room (calls res) <> 1).
Proof.
  intros s res.
  split; [by exists w0, [OpResolve "@u1:hs";
                         Elsewhere (leave_room "!r1" "@u1:hs")]|].
  split; [reflexivity|]. split; [vm_compute; reflexivity|].
  split; [vm_compute; reflexivity|].
  split; [apply (bool_decide_unpack _); vm_compute; exact I|].
  assert (calls res = []) as Hcalls by (vm_compute; reflexivity).
  split; [exact Hcalls|]. split; [vm_compute; reflexivity|].
  rewrite Hcalls. simpl. discriminate.
Qed.

Lemma resolution_idempotent_witness :
  let first := get_notice_room_for_user respond cfg "@u1:hs" (initial w0) in
  outcome first = inr "!r1" /\
  let s' :=
    exec_ops respond cfg
      [OpSend "@u2:hs" hello; Elsewhere (fun w => w); OpResolve "@u3:hs"]
      (final first) in
  get_notice_room_for_user respond cfg "@u1:hs" s'
  = {| final := s'; calls := []; outcome := inr "!r1" |}.
Proof.
  intros first. split; [vm_compute; reflexivity|].
  apply (resolution_idempotent respond cfg "@u1:hs" (initial w0) "!r1").
  vm_compute; reflexivity.
Defined.

Lemma resolution_frame_witness :
  let s := final (get_notice_room_for_user respond cfg "@u2:hs" (initial w0)) in
  "@u1:hs" <> "@u2:hs" /\
  cache s !! "@u2:hs" = Some "!r2" /\
  cache (final (get_notice_room_for_user respond cfg "@u1:hs" s)) !! "@u2:hs"
  = cache s !! "@u2:hs" /\
  forall content,
    cache (final (send_notice respond cfg "@u1:hs" content s)) !! "@u2:hs"
    = cache s !! "@u2:hs".
Proof.
  intros s. split; [discriminate|]. split; [vm_compute; reflexivity|].
  apply (resolution_frame respond cfg "@u1:hs" "@u2:hs" s). discriminate.
Defined.

Lemma enablement_gate_witness :
  server_notices_mxid (_config cfg_off) = None /\
  is_enabled cfg_off = false /\
  get_notice_room_for_user respond cfg_off "@u1:hs" (initial w0)
  = {| final := initial w0; calls := [];
       outcome := inl (Exception "Server notices not enabled") |} /\
  send_notice respond cfg_off "@u1:hs" hello (initial w0)
  = {| final := initial w0; calls := [];
       outcome := inl (Exception "Server notices not enabled") |}.
Proof.
  split; [reflexivity|].
  destruct (enablement_gate respond cfg_off eq_refl) as (Hoff & _ & Hgate).
  split; [exact Hoff|].
  destruct (Hgate (initial w0)) with (u := "@u1:hs") as [Hres Hsend].
  { exists w0, []. reflexivity. }
  split; [exact Hres|exact (Hsend hello)].
Defined.

Lemma creation_only_after_search_witness :
  let res := get_notice_room_for_user respond cfg "@u1:hs" (initial w0) in
  let listing :=
    Ev (get_rooms_for_user_where_membership_is "@u1:hs" [INVITE; JOIN])
      (inr [ {| room_id := "!a"; membership := JOIN |} ]) in
  let query := Ev (get_users_in_room "!a") (inr ["@u1:hs"; "@u2:hs"]) in
  let creation :=
    Ev (notice_room_creation cfg "@u1:hs") (inr {[ "room_id" := "!r1" ]}) in
  calls res = [listing; query] ++ creation :: [] /\
  is_create_room (cmd_of creation) = true /\
  exists rooms answers,
    length answers = length rooms /\
    Forall (fun user_ids => py_in (Some "@notices:hs") user_ids = false)
      answers /\
    [listing; query]
    = Ev (get_rooms_for_user_where_membership_is "@u1:hs" [INVITE; JOIN])
        (inr rooms) :: examined rooms answers.
Proof.
  intros res listing query creation.
  assert (calls res = [listing; query] ++ creation :: []) as Hcalls
    by (vm_compute; reflexivity).
  split; [exact Hcalls|]. split; [reflexivity|].
  exact (proj2 (creation_only_after_search respond cfg "@u1:hs" (initial w0)
                  [listing; query] creation [] Hcalls eq_refl)).
Defined.

Lemma creation_not_ratelimited_witness :
  let res := get_notice_room_for_user respond cfg "@u1:hs" (initial w0) in
  let creation :=
    Ev (notice_room_creation cfg "@u1:hs") (inr {[ "room_id" := "!r1" ]}) in
  creation ∈ calls res /\
  forall requester config ratelimit profile,
    cmd_of creation = create_room requester config ratelimit profile ->
    ratelimit = false.
Proof.
  intros res creation.
  assert (creation ∈ calls res) as Hin.
  { apply list_elem_of_lookup. exists 2. vm_compute. reflexivity. }
  split; [exact Hin|].
  intros requester config ratelimit profile.
  exact (creation_not_ratelimited respond cfg "@u1:hs" (initial w0) creation
           requester config ratelimit profile Hin).
Defined.

Lemma failed_resolution_not_cached_witness :
  let r := get_notice_room_for_user respond cfg "@u3:hs" (initial w0) in
  let e := Error "NotFoundError" "!gone" in
  outcome r = inl e /\
  (forall ev e', ev ∈ calls r -> failure_of ev = Some e' -> e' = e) /\
  cache (final r) = cache (initial w0) /\
  cache (final r) !! "@u3:hs" = None /\
  let again := get_notice_room_for_user respond cfg "@u3:hs" (final r) in
  let fresh := run respond (get_notice_room_for_user_orig cfg "@u3:hs")
                 (world (final r)) in
  calls again = calls fresh /\ outcome again = outcome fresh /\
  world (final again) = final fresh.
Proof.
  intros r e.
  assert (outcome r = inl e) as Hfail by (vm_compute; reflexivity).
  split; [exact Hfail|].
  exact (failed_resolution_not_cached respond cfg "@u3:hs" (initial w0) e
           Hfail).
Defined.

Lemma existing_room_is_reused_witness :
  let res := get_notice_room_for_user respond cfg "@u2:hs" (initial w0) in
  outcome res = inr "!r2" /\
  times is_create_room (calls res) = 0 /\
  final res = {| world := w0; cache := {[ "@u2:hs" := "!r2" ]} |}.
Proof.
  apply (existing_room_is_reused respond cfg "@u2:hs" (initial w0)
           "@notices:hs"
           [ {| room_id := "!a"; membership := JOIN |} ]
           {| room_id := "!r2"; membership := JOIN |}
           [ {| room_id := "!r3"; membership := INVITE |} ]
           ["@u2:hs"; "@notices:hs"]).
  - reflexivity.
  - reflexivity.
  - vm_compute. reflexivity.
  - intros room' Hin. apply list_elem_of_singleton in Hin as ->.
    exists ["@u1:hs"; "@u2:hs"]. split; [vm_compute; reflexivity|].
    apply (bool_decide_unpack _). vm_compute. exact I.
  - vm_compute. reflexivity.
  - apply (bool_decide_unpack _). vm_compute. exact I.
Defined.

Lemma missing_room_is_created_witness :
  let res := get_notice_room_for_user respond cfg "@u1:hs" (initial w0) in
  let creation :=
    create_room (create_requester (Some "@notices:hs"))
      {| preset := PRIVATE_CHAT;
         name := "Server Notices";
         power_level_content_override := {[ "users_default" := (-10)%Z ]};
         invite := ["@u1:hs"] |}
      false
      {| displayname := "Notices" |} in
  let answer := respond creation w0 in
  (exists answers,
      length answers = 1 /\
      calls res
      = Ev (get_rooms_for_user_where_membership_is "@u1:hs" [INVITE; JOIN])
          (inr [ {| room_id := "!a"; membership := JOIN |} ])
        :: examined [ {| room_id := "!a"; membership := JOIN |} ] answers
        ++ [Ev creation (answer.2)]) /\
  times is_create_room (calls res) = 1 /\
  (forall (info : gmap string string) (new_room : RoomId),
      answer.2 = inr info -> info !! "room_id" = Some new_room ->
      outcome res = inr new_room /\
      final res
      = {| world := answer.1; cache := <["@u1:hs" := new_room]> ∅ |}).
Proof.
  apply (missing_room_is_created respond cfg "@u1:hs" (initial w0)
           "@notices:hs" [ {| room_id := "!a"; membership := JOIN |} ]).
  - reflexivity.
  - reflexivity.
  - vm_compute. reflexivity.
  - intros room' Hin. apply list_elem_of_singleton in Hin as ->.
    exists ["@u1:hs"; "@u2:hs"]. split; [vm_compute; reflexivity|].
    apply (bool_decide_unpack _). vm_compute. exact I.
Defined.

Lemma send_notice_submits_one_event_witness :
  let r := get_notice_room_for_user respond cfg "@u1:hs" (initial w0) in
  outcome r = inr "!r1" /\
  let submission :=
    create_and_send_nonmember_event
      (create_requester (Some "@notices:hs"))
      {| ev_type := Message;
         ev_room_id := "!r1";
         ev_sender := Some "@notices:hs";
         ev_content := hello |}
      false in
  let answer := respond submission (world (final r)) in
  send_notice respond cfg "@u1:hs" hello (initial w0)
  = {| final := {| world := answer.1; cache := cache (final r) |};
       calls := calls r ++ [Ev submission (answer.2)];
       outcome := answer.2 |} /\
  times is_event_creation (calls r) = 0 /\
  times is_event_creation (calls (send_notice respond cfg "@u1:hs" hello
                                    (initial w0)))
  = 1.
Proof.
  intros r.
  assert (outcome r = inr "!r1") as Hok by (vm_compute; reflexivity).
  split; [exact Hok|].
  exact (send_notice_submits_one_event respond cfg "@u1:hs" hello
           (initial w0) "!r1" Hok).
Defined.

(** Three callers resolve [@u1:hs] concurrently while another resolves
    [@u2:hs]; a fifth caller for [@u1:hs] calls once the resolution has
    ended, and a sixth is never asked to call. *)
Definition crowd : Conc t :=
  {| homeserver := w0;
     table := ∅;
     callers := [Idle "@u1:hs"; Idle "@u2:hs"; Idle "@u1:hs"; Idle "@u1:hs";
                 Idle "@u1:hs"; Idle "@u1:hs"];
     log := [] |}.

Definition overlapping : list Action :=
  [ Call 0; Advance "@u1:hs"; Call 1; Call 2; Advance "@u2:hs";
    Advance "@u1:hs"; Call 3; Advance "@u1:hs"; Advance "@u1:hs";
    Advance "@u2:hs"; Advance "@u2:hs"; Advance "@u2:hs" ].

Definition interleaving : list Action := overlapping ++ [Call 4].

Example crowd_served :
  let s := exec respond cfg interleaving crowd in
  concurrent_calls respond cfg "@u1:hs" overlapping crowd = true /\
  same_flight respond cfg "@u1:hs" interleaving crowd = true /\
  callers s
  = [ Got "@u1:hs" (inr "!r1"); Got "@u2:hs" (inr "!r2");
      Got "@u1:hs" (inr "!r1"); Got "@u1:hs" (inr "!r1");
      Got "@u1:hs" (inr "!r1"); Idle "@u1:hs" ] /\
  count (is_start "@u1:hs") (log s) = 1 /\
  map cmd_of (performed "@u1:hs" (log s))
  = [ get_rooms_for_user_where_membership_is "@u1:hs" [INVITE; JOIN];
      get_users_in_room "!a";
      notice_room_creation cfg "@u1:hs" ] /\
  fresh (homeserver s) = ["!r4"].
Proof. vm_compute. done. Qed.

(** A call made after a failed resolution has ended does not belong to its
    flight, and starts a resolution of its own. *)
Example late_call_retries :
  let s0 := {| homeserver := w0; table := ∅;
               callers := [Idle "@u3:hs"; Idle "@u3:hs"]; log := [] |} in
  let sched := [ Call 0; Advance "@u3:hs"; Advance "@u3:hs";
                 Call 1; Advance "@u3:hs"; Advance "@u3:hs" ] in
  same_flight respond cfg "@u3:hs" sched s0 = false /\
  concurrent_calls respond cfg "@u3:hs" sched s0 = false /\
  count (is_start "@u3:hs") (log (exec respond cfg sched s0)) = 2.
Proof. vm_compute. done. Qed.

Lemma single_flight_witness :
  let u := "@u1:hs" in
  let s := exec respond cfg interleaving crowd in
  let caller i := Call i ∈ interleaving /\ callers crowd !! i = Some (Idle u) in
  count (is_start u) (log s) <= 1 /\
  (forall i, caller i ->
     count (is_start u) (log s) = 1 /\
     (callers s !! i = Some (Waiting u) \/
      exists o, callers s !! i = Some (Got u o))) /\
  (forall i, callers crowd !! i = Some (Idle u) -> Call i ∉ interleaving ->
     callers s !! i = Some (Idle u)) /\
  times is_create_room (performed u (log s)) <= 1 /\
  (forall i j o o',
     callers s !! i = Some (Got u o) -> callers s !! j = Some (Got u o') ->
     o = o') /\
  (forall o, Finished u o ∈ log s ->
     follows (get_notice_room_for_user_orig cfg u) (performed u (log s)) o /\
     forall i, caller i -> callers s !! i = Some (Got u o)) /\
  exists n o,
    let s' := exec respond cfg (replicate n (Advance u)) s in
    forall i, caller i ->
      callers s' !! i = Some (Got u o) /\
      Finished u o ∈ log s' /\
      count (is_start u) (log s') = 1 /\
      follows (get_notice_room_for_user_orig cfg u) (performed u (log s')) o.
Proof.
  apply (single_flight respond cfg "@u1:hs" interleaving crowd).
  - reflexivity.
  - reflexivity.
  - repeat (constructor;
            [intros Hu; first [reflexivity | discriminate Hu]|]).
    constructor.
  - vm_compute. reflexivity.
Defined.

End Scenarios.

(** * Further properties of the manager

    What follows holds for every behaviour of the collaborators; the
    statements about the resolver are about its undecorated body. *)

Section Conduct.
Context {World : Type}.
Variable respond : forall c : Cmd, World -> World * (PyErr + Resp c).
Implicit Types (self : ServerNoticesManager) (s : Sys World) (w : World).
Implicit Types (u : UserId) (t pre post : list Event) (e : PyErr).

Lemma body_conversation self u w :
  conversation self u
    (calls (run respond (get_notice_room_for_user_orig self u) w))
    (outcome (run respond (get_notice_room_for_user_orig self u) w)).
Proof. apply orig_follows, run_follows. Qed.

Lemma times_examined (p : Cmd -> bool) rooms uss :
  (forall room, p (get_users_in_room room) = false) ->
  times p (examined rooms uss) = 0.
Proof.
  intros Hp. revert uss.
  induction rooms as [|room rooms IH]; intros [|us uss]; simpl; try done.
  by rewrite Hp, IH.
Qed.

Lemma queried_app t t' : queried (t ++ t') = queried t ++ queried t'.
Proof.
  induction t as [|ev t IH]; simpl; [done|].
  destruct (cmd_of ev); simpl; by rewrite IH.
Qed.

Lemma queried_examined rooms uss :
  length uss = length rooms -> queried (examined rooms uss) = room_id <$> rooms.
Proof.
  revert uss. induction rooms as [|room rooms IH]; intros [|us uss] Hlen;
    try done.
  simpl. f_equal. apply IH. by injection Hlen.
Qed.

Lemma examined_not_found m rooms uss :
  Forall (fun us => py_in m us = false) uss ->
  Forall (fun ev => found_in m ev = false) (examined rooms uss).
Proof.
  intros Hall. revert rooms.
  induction Hall as [|us uss Hus _ IH]; intros [|room rooms]; simpl; auto.
Qed.

Lemma examined_no_dict rooms uss :
  Forall (fun ev => creation_answer ev = None) (examined rooms uss).
Proof.
  revert uss.
  induction rooms as [|room rooms IH]; intros [|us uss]; simpl; auto.
Qed.

(** [send_notice] fails in one of three ways only: the feature is off,
    and then nothing was called; or the room creation answered a dict
    without a room id, which was the last call, and the failure is the
    [KeyError]; or the last call raised, and [send_notice] ends with that
    very exception. *)
Theorem send_notice_failures self u content s e :
  let res := send_notice respond self u content s in
  outcome res = inl e ->
  (is_enabled self = false /\
   e = Exception "Server notices not enabled" /\ calls res = []) \/
  (e = KeyError "room_id" /\
   exists pre ev info,
     calls res = pre ++ [ev] /\ creation_answer ev = Some info /\
     info !! "room_id" = None) \/
  (exists pre ev, calls res = pre ++ [ev] /\ failure_of ev = Some e).
Proof.
  intros res. subst res. rewrite send_notice_unfold. cbv zeta.
  destruct (outcome (get_notice_room_for_user respond self u s))
    as [e'|room] eqn:Hout; simpl.
  - intros [= <-].
    destruct (resolve_calls respond self u s) as [(room & Hhit & _)|[_ Hconv]].
    { rewrite (resolve_hit _ _ _ _ _ Hhit) in Hout. done. }
    rewrite Hout in Hconv.
    destruct Hconv
      as [Hen Ht Ho|e0 Hen Ht Ho|pre room post uss r Hen Hlen Hall Ht Hr
         |rooms uss r Hen Hlen Hall Ht Ho]; rewrite Ht.
    + left. injection Ho as ->. done.
    + right. right. injection Ho as ->. by eexists [], _.
    + right. right. destruct r as [e0|us]; [|by destruct Hr].
      injection Hr as ->. rewrite app_comm_cons. by eexists _, _.
    + right. destruct r as [e0|info].
      * right. injection Ho as ->. rewrite app_comm_cons. by eexists _, _.
      * left. destruct (info !! "room_id") as [room|] eqn:Hinfo; [done|].
        injection Ho as ->. split; [done|].
        rewrite app_comm_cons. by eexists _, _, info.
  - intros Hfail. right. right.
    eexists _, _. split; [done|].
    by destruct (respond _ _) as [w' [e1|[]]]; simpl in *; congruence.
Qed.

(** An enabled resolver first lists the user's invite/join rooms, once;
    when the listing fails the resolver ends with that exception; otherwise
    the rooms it then asks the members of are the listed rooms, in listing
    order, from the first one on, without a gap or a repetition. *)
Theorem search_walks_the_listing self u w :
  is_enabled self = true ->
  let res := run respond (get_notice_room_for_user_orig self u) w in
  exists (r : PyErr + list RoomsForUser) t',
    calls res
    = Ev (get_rooms_for_user_where_membership_is u [INVITE; JOIN]) r :: t' /\
    times is_listing t' = 0 /\
    match r with
    | inl e => t' = [] /\ outcome res = inl e
    | inr rooms => queried t' `prefix_of` (room_id <$> rooms)
    end.
Proof.
  intros Hon res. subst res.
  destruct (body_conversation self u w)
    as [Hen Ht Ho|e Hen Ht Ho|pre room post uss r Hen Hlen Hall Ht Hr
       |rooms uss r Hen Hlen Hall Ht Ho].
  - congruence.
  - exists (inl e), []. by rewrite Ht, Ho.
  - exists (inr (pre ++ room :: post)),
      (examined pre uss ++ [Ev (get_users_in_room (room_id room)) r]).
    split; [done|]. split.
    + by rewrite times_app, times_examined.
    + rewrite queried_app, queried_examined by done. simpl.
      exists (room_id <$> post). by rewrite fmap_app, <- app_assoc.
  - exists (inr rooms),
      (examined rooms uss ++ [Ev (notice_room_creation self u) r]).
    split; [done|]. split.
    + by rewrite times_app, times_examined.
    + rewrite queried_app, queried_examined by done.
      unfold notice_room_creation. simpl. exists [].
      by rewrite !app_nil_r.
Qed.

Lemma resolve_creations self u s :
  times is_create_room (calls (get_notice_room_for_user respond self u s)) <= 1.
Proof.
  destruct (resolve_calls respond self u s) as [(room & _ & ->)|[_ Hconv]];
    [simpl; lia|].
  destruct Hconv
    as [Hen -> Ho|e Hen -> Ho|pre room post uss r Hen Hlen Hall -> Hr
       |rooms uss r Hen Hlen Hall -> Ho]; simpl; try lia.
  - rewrite times_app, times_examined by done. simpl. lia.
  - rewrite times_app, times_examined by done. simpl. lia.
Qed.

(** Whatever the collaborators answer, one [send_notice] creates at most
    one room. *)
Theorem at_most_one_room_created self u content s :
  times is_create_room (calls (send_notice respond self u content s)) <= 1.
Proof.
  rewrite send_notice_unfold. cbv zeta.
  pose proof (resolve_creations self u s) as Hle.
  destruct (outcome (get_notice_room_for_user respond self u s)); simpl;
    [done|].
  rewrite times_app. simpl. lia.
Qed.

(** A room id the resolver returns is either that of a room whose members,
    as the store answered, include the system account -- and then no room
    was created -- or the ["room_id"] entry of the dict the room creation
    answered. *)
Theorem returned_room_provenance self u w (room : RoomId) :
  let res := run respond (get_notice_room_for_user_orig self u) w in
  outcome res = inr room ->
  (exists ev user_ids,
      ev ∈ calls res /\ members_answer ev = Some (room, user_ids) /\
      py_in (server_notices_mxid (_config self)) user_ids = true /\
      times is_create_room (calls res) = 0) \/
  (exists ev info,
      ev ∈ calls res /\ creation_answer ev = Some info /\
      info !! "room_id" = Some room).
Proof.
  intros res. subst res.
  destruct (body_conversation self u w)
    as [Hen Ht Ho|e Hen Ht Ho|pre room' post uss r Hen Hlen Hall Ht Hr
       |rooms uss r Hen Hlen Hall Ht Ho]; rewrite Ht; intros Hout.
  - congruence.
  - congruence.
  - destruct r as [e|us]; [congruence|]. destruct Hr as [Hin Ho].
    left. exists (Ev (get_users_in_room (room_id room')) (inr us)), us.
    split; [set_solver|]. split; [simpl; congruence|]. split; [done|].
    simpl. by rewrite times_app, times_examined.
  - destruct r as [e|info]; [congruence|].
    right. exists (Ev (notice_room_creation self u) (inr info)), info.
    split; [set_solver|]. split; [done|].
    destruct (info !! "room_id"); congruence.
Qed.

(** The resolver returns the ["room_id"] entry of the dict the room
    creation answers, and raises [KeyError] when there is no such entry. *)
Theorem creation_answer_decides self u w ev (info : gmap string string) :
  let res := run respond (get_notice_room_for_user_orig self u) w in
  ev ∈ calls res -> creation_answer ev = Some info ->
  outcome res = match info !! "room_id" with
                | Some room => inr room
                | None => inl (KeyError "room_id")
                end.
Proof.
  intros res. subst res.
  destruct (body_conversation self u w)
    as [Hen Ht Ho|e Hen Ht Ho|pre room' post uss r Hen Hlen Hall Ht Hr
       |rooms uss r Hen Hlen Hall Ht Ho]; rewrite Ht; intros Hev Hinfo.
  - by apply elem_of_nil in Hev.
  - apply list_elem_of_singleton in Hev as ->. done.
  - apply elem_of_cons in Hev as [->|Hev]; [done|].
    apply elem_of_app in Hev as [Hev|Hev].
    + pose proof (examined_no_dict pre uss) as Hno.
      rewrite Forall_forall in Hno. rewrite (Hno _ Hev) in Hinfo. done.
    + apply list_elem_of_singleton in Hev as ->. done.
  - apply elem_of_cons in Hev as [->|Hev]; [done|].
    apply elem_of_app in Hev as [Hev|Hev].
    + pose proof (examined_no_dict rooms uss) as Hno.
      rewrite Forall_forall in Hno. rewrite (Hno _ Hev) in Hinfo. done.
    + apply list_elem_of_singleton in Hev as ->.
      unfold notice_room_creation in Hinfo. simpl in Hinfo.
      destruct r as [e|info']; [done|]. injection Hinfo as ->. done.
Qed.

(** The first store answer whose members include the system account ends
    the resolution: it is the resolver's last call, its room is returned,
    and no room is created. *)
Theorem match_ends_search self u w pre ev post (room : RoomId)
    (user_ids : list UserId) :
  let res := run respond (get_notice_room_for_user_orig self u) w in
  calls res = pre ++ ev :: post ->
  members_answer ev = Some (room, user_ids) ->
  py_in (server_notices_mxid (_config self)) user_ids = true ->
  post = [] /\ outcome res = inr room /\
  times is_create_room (calls res) = 0.
Proof.
  intros res. subst res.
  set (m := server_notices_mxid (_config self)).
  intros Heq Hans Hin.
  assert (found_in m ev = true) as Hfound.
  { unfold found_in. by rewrite Hans. }
  destruct (body_conversation self u w)
    as [Hen Ht Ho|e Hen Ht Ho|pre' room' post' uss r Hen Hlen Hall Ht Hr
       |rooms uss r Hen Hlen Hall Ht Ho]; rewrite Ht in *.
  - by destruct pre.
  - destruct pre as [|? pre]; simpl in Heq.
    + injection Heq as <- _. done.
    + injection Heq as _ Heq. by destruct pre.
  - rewrite app_comm_cons in Heq.
    apply (split_at_last (found_in m)) in Heq as (_ & -> & ->);
      [|constructor; [done|by apply examined_not_found]|done].
    simpl in Hans. destruct r as [e|us]; [done|].
    injection Hans as <- <-. destruct Hr as [_ Hr].
    split; [done|]. split; [done|].
    simpl. by rewrite times_app, times_examined.
  - rewrite app_comm_cons in Heq.
    apply (split_at_last (found_in m)) in Heq as (_ & -> & ->);
      [|constructor; [done|by apply examined_not_found]|done].
    done.
Qed.

(** [send_notice] submits an event only after the resolution has returned
    a room: a submission is the last call, everything before it is the
    resolution, and the event is the message for the resolved room, sent as
    and by the configured system account with the caller's content and
    [ratelimit=False]. *)
Theorem submission_only_after_resolution self u content s pre ev post :
  calls (send_notice respond self u content s) = pre ++ ev :: post ->
  is_event_creation (cmd_of ev) = true ->
  post = [] /\
  pre = calls (get_notice_room_for_user respond self u s) /\
  exists room,
    outcome (get_notice_room_for_user respond self u s) = inr room /\
    cmd_of ev
    = create_and_send_nonmember_event
        (create_requester (server_notices_mxid (_config self)))
        {| ev_type := Message;
           ev_room_id := room;
           ev_sender := server_notices_mxid (_config self);
           ev_content := content |}
        false.
Proof.
  rewrite send_notice_unfold. cbv zeta.
  assert (Forall (fun ev => is_event_creation (cmd_of ev) = false)
            (calls (get_notice_room_for_user respond self u s))) as Hnone.
  { destruct (resolve_calls respond self u s)
      as [(room & _ & ->)|[_ Hconv]]; [constructor|].
    by eapply conversation_no_submission. }
  destruct (outcome (get_notice_room_for_user respond self u s))
    as [e|room]; simpl; intros Heq Hev.
  - exfalso. rewrite Forall_forall in Hnone.
    rewrite (Hnone ev) in Hev; [done|]. rewrite Heq. set_solver.
  - apply (split_at_last (fun z => is_event_creation (cmd_of z))) in Heq
      as (-> & -> & ->); [|done..].
    split; [done|]. split; [done|]. by exists room.
Qed.

(** Every room creation [send_notice] causes is the one call the resolver
    spells out: on behalf of the system account, a private chat with the
    configured name, [users_default] at -10, the target user as the only
    invitee, no rate limit and the configured display name. *)
Theorem room_creation_call self u content s ev :
  ev ∈ calls (send_notice respond self u content s) ->
  is_create_room (cmd_of ev) = true ->
  cmd_of ev
  = create_room
      (create_requester (server_notices_mxid (_config self)))
      {| preset := PRIVATE_CHAT;
         name := server_notices_room_name (_config self);
         power_level_content_override := {[ "users_default" := (-10)%Z ]};
         invite := [u] |}
      false
      {| displayname := server_notices_mxid_display_name (_config self) |}.
Proof.
  rewrite send_notice_unfold. cbv zeta. intros Hev Hcreate.
  assert (ev ∈ calls (get_notice_room_for_user respond self u s)) as Hin.
  { destruct (outcome (get_notice_room_for_user respond self u s));
      simpl in Hev; [done|].
    apply elem_of_app in Hev as [Hev|Hev]; [done|].
    apply list_elem_of_singleton in Hev as ->. done. }
  apply list_elem_of_split in Hin as (pre & post & Heq).
  destruct (resolve_calls respond self u s) as [(room & _ & Hnil)|[_ Hconv]].
  - rewrite Hnil in Heq. by destruct pre.
  - by destruct (conversation_creation _ _ _ _ _ _ _ Hconv Heq Hcreate)
      as (_ & Hc & _).
Qed.

End Conduct.

(** ** The further properties on the two small worlds *)

Module Walkthrough.

Definition greeting : Json := JObj [("body", JStr "greeting")].

Lemma send_notice_failures_witness :
  let res :=
    send_notice Careless.respond Homeserver.cfg "@u1:hs" greeting
      {| world := tt; cache := ∅ |} in
  let e := KeyError "room_id" in
  outcome res = inl e /\
  ((is_enabled Homeserver.cfg = false /\
    e = Exception "Server notices not enabled" /\ calls res = []) \/
   (e = KeyError "room_id" /\
    exists pre ev info,
      calls res = pre ++ [ev] /\ creation_answer ev = Some info /\
      info !! "room_id" = None) \/
   (exists pre ev, calls res = pre ++ [ev] /\ failure_of ev = Some e)).
Proof.
  intros res e.
  assert (outcome res = inl e) as Hout by (vm_compute; reflexivity).
  split; [exact Hout|].
  exact (send_notice_failures Careless.respond Homeserver.cfg "@u1:hs"
           greeting {| world := tt; cache := ∅ |} e Hout).
Defined.

Lemma search_walks_the_listing_witness :
  is_enabled Homeserver.cfg = true /\
  let res :=
    run Homeserver.respond
      (get_notice_room_for_user_orig Homeserver.cfg "@u2:hs") Homeserver.w0 in
  exists (r : PyErr + list RoomsForUser) t',
    calls res
    = Ev (get_rooms_for_user_where_membership_is "@u2:hs" [INVITE; JOIN]) r
      :: t' /\
    times is_listing t' = 0 /\
    match r with
    | inl e => t' = [] /\ outcome res = inl e
    | inr rooms => queried t' `prefix_of` (room_id <$> rooms)
    end.
Proof.
  split; [reflexivity|].
  exact (search_walks_the_listing Homeserver.respond Homeserver.cfg "@u2:hs"
           Homeserver.w0 eq_refl).
Defined.

Lemma returned_room_provenance_witness :
  let res :=
    run Homeserver.respond
      (get_notice_room_for_user_orig Homeserver.cfg "@u2:hs") Homeserver.w0 in
  outcome res = inr "!r2" /\
  ((exists ev user_ids,
       ev ∈ calls res /\ members_answer ev = Some ("!r2", user_ids) /\
       py_in (Some "@notices:hs") user_ids = true /\
       times is_create_room (calls res) = 0) \/
   (exists ev info,
       ev ∈ calls res /\ creation_answer ev = Some info /\
       info !! "room_id" = Some "!r2")).
Proof.
  intros res.
  assert (outcome res = inr "!r2") as Hout by (vm_compute; reflexivity).
  split; [exact Hout|].
  exact (returned_room_provenance Homeserver.respond Homeserver.cfg "@u2:hs"
           Homeserver.w0 "!r2" Hout).
Defined.

Lemma creation_answer_decides_witness :
  let res :=
    run Careless.respond
      (get_notice_room_for_user_orig Homeserver.cfg "@u1:hs") tt in
  let creation :=
    Ev (notice_room_creation Homeserver.cfg "@u1:hs")
      (inr {[ "room_alias" := "#notices:hs" ]}) in
  creation ∈ calls res /\
  creation_answer creation = Some {[ "room_alias" := "#notices:hs" ]} /\
  outcome res = inl (KeyError "room_id").
Proof.
  intros res creation.
  assert (creation ∈ calls res) as Hin.
  { apply list_elem_of_lookup. exists 1. vm_compute. reflexivity. }
  split; [exact Hin|]. split; [reflexivity|].
  exact (creation_answer_decides Careless.respond Homeserver.cfg "@u1:hs" tt
           creation {[ "room_alias" := "#notices:hs" ]} Hin eq_refl).
Defined.

Lemma match_ends_search_witness :
  let res :=
    run Homeserver.respond
      (get_notice_room_for_user_orig Homeserver.cfg "@u2:hs") Homeserver.w0 in
  let listing :=
    Ev (get_rooms_for_user_where_membership_is "@u2:hs" [INVITE; JOIN])
      (inr [ {| room_id := "!a"; membership := JOIN |};
             {| room_id := "!r2"; membership := JOIN |};
             {| room_id := "!r3"; membership := INVITE |} ]) in
  let miss := Ev (get_users_in_room "!a") (inr ["@u1:hs"; "@u2:hs"]) in
  let hit := Ev (get_users_in_room "!r2") (inr ["@u2:hs"; "@notices:hs"]) in
  calls res = [listing; miss] ++ hit :: [] /\
  members_answer hit = Some ("!r2", ["@u2:hs"; "@notices:hs"]) /\
  @nil Event = [] /\ outcome res = inr "!r2" /\
  times is_create_room (calls res) = 0.
Proof.
  intros res listing miss hit.
  assert (calls res = [listing; miss] ++ hit :: []) as Hcalls
    by (vm_compute; reflexivity).
  split; [exact Hcalls|]. split; [reflexivity|].
  exact (match_ends_search Homeserver.respond Homeserver.cfg "@u2:hs"
           Homeserver.w0 [listing; miss] hit [] "!r2"
           ["@u2:hs"; "@notices:hs"] Hcalls eq_refl eq_refl).
Defined.

Lemma submission_only_after_resolution_witness :
  let s := initial Homeserver.w0 in
  let r :=
    get_notice_room_for_user Homeserver.respond Homeserver.cfg "@u1:hs" s in
  let resolution :=
    [ Ev (get_rooms_for_user_where_membership_is "@u1:hs" [INVITE; JOIN])
        (inr [ {| room_id := "!a"; membership := JOIN |} ]);
      Ev (get_users_in_room "!a") (inr ["@u1:hs"; "@u2:hs"]);
      Ev (notice_room_creation Homeserver.cfg "@u1:hs")
        (inr {[ "room_id" := "!r1" ]}) ] in
  let submission :=
    Ev (notice_submission Homeserver.cfg "!r1" greeting) (inr tt) in
  calls (send_notice Homeserver.respond Homeserver.cfg "@u1:hs" greeting s)
  = resolution ++ submission :: [] /\
  is_event_creation (cmd_of submission) = true /\
  @nil Event = [] /\
  resolution = calls r /\
  exists room,
    outcome r = inr room /\
    cmd_of submission
    = create_and_send_nonmember_event
        (create_requester (Some "@notices:hs"))
        {| ev_type := Message;
           ev_room_id := room;
           ev_sender := Some "@notices:hs";
           ev_content := greeting |}
        false.
Proof.
  intros s r resolution submission.
  assert (calls (send_notice Homeserver.respond Homeserver.cfg "@u1:hs"
                   greeting s)
          = resolution ++ submission :: []) as Hcalls
    by (vm_compute; reflexivity).
  split; [exact Hcalls|]. split; [reflexivity|].
  exact (submission_only_after_resolution Homeserver.respond Homeserver.cfg
           "@u1:hs" greeting s resolution submission [] Hcalls eq_refl).
Defined.

Lemma room_creation_call_witness :
  let res :=
    send_notice Homeserver.respond Homeserver.cfg "@u1:hs" greeting
      (initial Homeserver.w0) in
  let creation :=
    Ev (notice_room_creation Homeserver.cfg "@u1:hs")
      (inr {[ "room_id" := "!r1" ]}) in
  creation ∈ calls res /\
  is_create_room (cmd_of creation) = true /\
  cmd_of creation
  = create_room
      (create_requester (Some "@notices:hs"))
      {| preset := PRIVATE_CHAT;
         name := "Server Notices";
         power_level_content_override := {[ "users_default" := (-10)%Z ]};
         invite := ["@u1:hs"] |}
      false
      {| displayname := "Notices" |}.
Proof.
  intros res creation.
  assert (creation ∈ calls res) as Hin.
  { apply list_elem_of_lookup. exists 2. vm_compute. reflexivity. }
  split; [exact Hin|]. split; [reflexivity|].
  exact (room_creation_call Homeserver.respond Homeserver.cfg "@u1:hs" greeting
           (initial Homeserver.w0) creation Hin eq_refl).
Defined.

End Walkthrough.
